(** * Rate-limited request queue of the zoom-extraction system

    A shallow embedding of [app/services/api_queue.py]: the [TokenBucket]
    class, the text splitter [_split_text], the token estimator, the
    coordinator ([add_request], [_process_large_request]) and the drain loop
    [_process_queue] run by the asyncio event loop.

    Numbers.  Python mixes [int] and [float]: token balances, refill rates and
    clock readings are floats.  They are modelled by exact rationals [Q]
    (equality is [==]); integer token counts are [Z] and are injected with
    [inject_Z] where the code mixes them with floats.  Rounding of binary
    floating point is outside the model.

    Text.  A Python [str] is modelled as a list of characters.

    The transcript segments the analysis pipeline turns into prompts
    ([app/services/vtt_parser.py]) are embedded as well. *)

From Stdlib Require Import ZArith QArith Qminmax Lia Lqa Bool Ascii String DecimalString List.
Import ListNotations.

(* ------------------------------------------------------------------------- *)
(** ** TokenBucket *)

Module TokenBucket.

Open Scope Q_scope.

(** The four attributes set by [__init__]. *)
Record t := mk {
  capacity    : Q;
  refill_rate : Q;
  tokens      : Q;
  last_refill : Q
}.

(** [TokenBucket(capacity, refill_rate)] built when the clock reads [now]. *)
Definition init (cap rate now : Q) : t :=
  {| capacity := cap; refill_rate := rate; tokens := cap; last_refill := now |}.

(** [refill]: [now] is the value returned by [time.time()]. *)
Definition refill (b : t) (now : Q) : t :=
  let elapsed := now - last_refill b in
  let refill := elapsed * refill_rate b in
  {| capacity := capacity b;
     refill_rate := refill_rate b;
     tokens := Qmin (capacity b) (tokens b + refill);
     last_refill := now |}.

(** [consume]: returns the boolean result and the mutated bucket. *)
Definition consume (b : t) (now : Q) (n : Q) : bool * t :=
  let b1 := refill b now in
  if Qle_bool n (tokens b1)
  then (true, {| capacity := capacity b1;
                 refill_rate := refill_rate b1;
                 tokens := tokens b1 - n;
                 last_refill := last_refill b1 |})
  else (false, b1).

(** [get_wait_time]: the division raises [ZeroDivisionError] when the rate
    is zero; that is the [None] result. *)
Definition get_wait_time (b : t) (now : Q) (n : Q) : option Q * t :=
  let b1 := refill b now in
  if Qle_bool n (tokens b1) then (Some 0, b1)
  else
    let additional_tokens_needed := n - tokens b1 in
    if Qeq_bool (refill_rate b1) 0 then (None, b1)
    else (Some (additional_tokens_needed / refill_rate b1), b1).

(** The world a bucket lives in: the bucket and the wall clock. *)
Record world := mkw { bucket : t; clock : Q }.

(** Operations applied to a bucket, and the passing of time. *)
Inductive op :=
| Advance (dt : Q)
| Refill
| Consume (n : Q)
| GetWaitTime (n : Q).

Definition apply (w : world) (o : op) : world :=
  match o with
  | Advance dt => {| bucket := bucket w; clock := clock w + dt |}
  | Refill => {| bucket := refill (bucket w) (clock w); clock := clock w |}
  | Consume n => {| bucket := snd (consume (bucket w) (clock w) n); clock := clock w |}
  | GetWaitTime n =>
      {| bucket := snd (get_wait_time (bucket w) (clock w) n); clock := clock w |}
  end.

Definition run (w : world) (ops : list op) : world := fold_left apply ops w.

(** An operation is admissible when time does not run backwards and token
    amounts are non-negative counts. *)
Definition op_ok (o : op) : Prop :=
  match o with
  | Advance dt => 0 <= dt
  | Refill => True
  | Consume n => 0 <= n
  | GetWaitTime n => True
  end.

(** The bounds on the balance, and a clock that is not behind the last
    refill. *)
Definition bounded (w : world) : Prop :=
  0 <= tokens (bucket w) <= capacity (bucket w) /\
  last_refill (bucket w) <= clock w.


(** The constants [ClaudeAPIQueue.__init__] gives its bucket: capacity for
    one minute, refilled at a sixtieth of it per second. *)
Definition per_minute (tokens_per_minute : Z) (b : t) : Prop :=
  capacity b = inject_Z tokens_per_minute /\
  refill_rate b = inject_Z tokens_per_minute / 60.

End TokenBucket.

(* ------------------------------------------------------------------------- *)
(** ** Python strings *)

Module Str.

Definition str := list ascii.

Definition lit (s : string) : str := list_ascii_of_string s.

Definition nl : ascii := "010"%char.
Definition sp : ascii := " "%char.

(** [len(s)] as a Python integer. *)
Definition len (s : str) : Z := Z.of_nat (length s).

Fixpoint is_prefix (p s : str) : bool :=
  match p, s with
  | [], _ => true
  | _ :: _, [] => false
  | a :: p', b :: s' => Ascii.eqb a b && is_prefix p' s'
  end.

(** Puts [c] in front of the first piece. *)
Definition cons_head (c : ascii) (l : list str) : list str :=
  match l with
  | [] => [[c]]
  | p :: ps => (c :: p) :: ps
  end.

(** [s.split(sep)] for a non-empty separator: the leftmost occurrences,
    not overlapping.  [skip] counts the characters of a separator that has
    just been recognised and is still to be passed over. *)
Fixpoint split_go (sep : str) (skip : nat) (s : str) : list str :=
  match s with
  | [] => [[]]
  | c :: s' =>
      match skip with
      | S k => split_go sep k s'
      | O =>
          if is_prefix sep s
          then [] :: split_go sep (length sep - 1) s'
          else cons_head c (split_go sep 0 s')
      end
  end.

Definition split (sep s : str) : list str := split_go sep 0 s.

(** [s.replace(old, new)] for a non-empty [old]. *)
Fixpoint replace_go (old new : str) (skip : nat) (s : str) : str :=
  match s with
  | [] => []
  | c :: s' =>
      match skip with
      | S k => replace_go old new k s'
      | O =>
          if is_prefix old s
          then new ++ replace_go old new (length old - 1) s'
          else c :: replace_go old new 0 s'
      end
  end.

Definition replace (old new s : str) : str := replace_go old new 0 s.

(** [sep.join(l)]. *)
Fixpoint join (sep : str) (l : list str) : str :=
  match l with
  | [] => []
  | [p] => p
  | p :: ps => p ++ sep ++ join sep ps
  end.

(** [s.split(sep, 1)]: [None] when [sep] does not occur (Python then returns
    the one-element list [[s]]), else the text before and after the first
    occurrence. *)
Fixpoint split1 (sep : str) (s : str) : option (str * str) :=
  if is_prefix sep s then Some ([], skipn (length sep) s)
  else match s with
       | [] => None
       | c :: s' =>
           match split1 sep s' with
           | Some (before, after) => Some (c :: before, after)
           | None => None
           end
       end.

(** [c.isspace()] on code points below 256. *)
Definition is_space (c : ascii) : bool :=
  let n := nat_of_ascii c in
  ((9 <=? n) && (n <=? 13) || (28 <=? n) && (n <=? 32)
   || (n =? 133) || (n =? 160))%nat.

Fixpoint lstrip (s : str) : str :=
  match s with
  | c :: s' => if is_space c then lstrip s' else s
  | [] => []
  end.

(** [s.strip()]. *)
Definition strip (s : str) : str := rev (lstrip (rev (lstrip s))).

(** [str(n)] for a non-negative integer. *)
Definition of_nat (n : nat) : str :=
  lit (NilZero.string_of_uint (Nat.to_uint n)).

(** [sep in s]. *)
Fixpoint occurs (sep s : str) : bool :=
  is_prefix sep s
  || match s with
     | [] => false
     | _ :: s' => occurs sep s'
     end.

End Str.

(* ------------------------------------------------------------------------- *)
(** ** The splitter and the estimator *)

Module Splitter.
Import Str.
Open Scope Z_scope.

(** [estimate_tokens]. *)
Definition estimate_tokens (text : str) : Z := len text / 4 + 1.

(** The pair [(chunks, current_chunk)] the loops of [_split_text] mutate. *)
Definition acc := (list str * str)%type.

(** [if current_chunk: chunks.append(current_chunk); current_chunk = ""]. *)
Definition flush (st : acc) : acc :=
  match snd st with
  | [] => st
  | _ :: _ => (fst st ++ [snd st], [])
  end.

(** Body of [for word in words]. *)
Definition word_step (max_chars : Z) (st : acc) (word : str) : acc :=
  let (chunks, current_chunk) := st in
  if len current_chunk + len word + 1 >? max_chars
  then (chunks ++ [current_chunk], word ++ [sp])
  else (chunks, current_chunk ++ word ++ [sp]).

(** Body of [for sentence in sentences]. *)
Definition sentence_step (max_chars : Z) (st : acc) (sentence : str) : acc :=
  if len (snd st) + len sentence >? max_chars
  then
    let st1 := flush st in
    if len sentence >? max_chars
    then fold_left (word_step max_chars) (split [sp] sentence) st1
    else (fst st1, sentence ++ [sp])
  else (fst st, snd st ++ sentence ++ [sp]).

(** [paragraph.replace(". ", ".\n").split("\n")]. *)
Definition sentences_of (paragraph : str) : list str :=
  split [nl] (replace (lit ". ") ["."%char; nl] paragraph).

(** Body of [for paragraph in paragraphs]. *)
Definition paragraph_step (max_chars : Z) (st : acc) (paragraph : str) : acc :=
  if len (snd st) + len paragraph >? max_chars
  then
    let st1 := flush st in
    if len paragraph >? max_chars
    then fold_left (sentence_step max_chars) (sentences_of paragraph) st1
    else (fst st1, paragraph ++ [nl; nl])
  else (fst st, snd st ++ paragraph ++ [nl; nl]).

Definition _split_text (text : str) (max_tokens : Z) : list str :=
  let max_chars := max_tokens * 4 in
  if len text <=? max_chars then [text]
  else
    let paragraphs := split [nl; nl] text in
    let st := fold_left (paragraph_step max_chars) paragraphs ([], []) in
    fst (flush st).

(** The text the chunks spell out: every piece of the input, in order,
    followed by the separator the loops append to it. *)
Definition word_pieces (sentence : str) : str :=
  concat (map (fun word => word ++ [sp]) (split [sp] sentence)).

Definition sentence_pieces (max_chars : Z) (sentence : str) : str :=
  if len sentence >? max_chars then word_pieces sentence
  else sentence ++ [sp].

Definition paragraph_pieces (max_chars : Z) (paragraph : str) : str :=
  if len paragraph >? max_chars
  then concat (map (sentence_pieces max_chars) (sentences_of paragraph))
  else paragraph ++ [nl; nl].

Definition pieces (max_chars : Z) (text : str) : str :=
  concat (map (paragraph_pieces max_chars) (split [nl; nl] text)).

(** What has been emitted so far: the finished chunks and the open one. *)
Definition content (st : acc) : str := concat (fst st) ++ snd st.

(** A chunk made of one word longer than the budget, and the space the
    word loop appends. *)
Definition lone_long_word (max_chars : Z) (chunk : str) : Prop :=
  exists word, chunk = word ++ [sp] /\ max_chars < len word
               /\ ~ In sp word /\ ~ In nl word.

(** The size bound every other chunk meets. *)
Definition chunk_ok (max_chars : Z) (chunk : str) : Prop :=
  len chunk <= max_chars + 2 \/ lone_long_word max_chars chunk.

(** The bound holds of the finished chunks and of the open one. *)
Definition acc_ok (max_chars : Z) (st : acc) : Prop :=
  Forall (chunk_ok max_chars) (fst st) /\ chunk_ok max_chars (snd st).

(** Turns the boolean tests of the code into integer inequalities. *)
Ltac ztest :=
  repeat match goal with
  | H : (_ >? _) = true |- _ => apply Z.gtb_lt in H
  | H : (_ >? _) = false |- _ => rewrite Z.gtb_ltb in H; apply Z.ltb_ge in H
  | H : (_ <=? _) = true |- _ => apply Z.leb_le in H
  | H : (_ <=? _) = false |- _ => apply Z.leb_gt in H
  | H : (_ <? _) = true |- _ => apply Z.ltb_lt in H
  | H : (_ <? _) = false |- _ => apply Z.ltb_ge in H
  end.

End Splitter.

(* ------------------------------------------------------------------------- *)
(** ** The coordinator: [add_request] and [_process_large_request] *)

Module Coordinator.
Import Str Splitter.
Open Scope Z_scope.

(** Exceptions that travel through the queue. *)
Inductive exn :=
| RateLimitError
| ProviderError (msg : string)
| IndexError
| InvalidStateError
| ZeroDivisionError.

(** What a future is resolved with: [set_result] or [set_exception]. *)
Inductive outcome :=
| Ok (text : str)
| Exn (e : exn).

(** A coroutine of the coordinator, cut at its suspension points.
    [EnqueueAwait] is the block that creates a future, appends the request
    dictionary to [self.queue], starts [_process_queue] when
    [self.processing] is false, and awaits the future: the continuation
    receives what the future was resolved with.  [Sleep] is
    [await asyncio.sleep(delay)]. *)
Inductive coro :=
| Return (text : str)
| Raise (e : exn)
| EnqueueAwait (prompt : str) (max_tokens : Z) (temperature : Q)
               (estimated_tokens : Z) (k : outcome -> coro)
| Sleep (delay : Q) (k : coro).

(** [await future]: the value, or the exception re-raised in the caller. *)
Definition await_result (k : str -> coro) (o : outcome) : coro :=
  match o with
  | Ok text => k text
  | Exn e => Raise e
  end.

(** The prompt sent for chunk [i] (counted from 0) of [total]. *)
Definition chunk_prompt (system_prompt : str) (i total : nat) (chunk : str) : str :=
  if (1 <? total)%nat
  then system_prompt ++ [nl; nl] ++ lit "This is part " ++ of_nat (i + 1)
       ++ lit " of " ++ of_nat total ++ lit " of a larger document."
       ++ [nl; nl] ++ chunk
  else system_prompt ++ [nl; nl] ++ chunk.

(** What [chunk_prompt] puts in front of the chunk: the preamble and, when
    there are several chunks, the part annotation. *)
Definition injected (system_prompt : str) (i total : nat) : str :=
  if (1 <? total)%nat
  then system_prompt ++ [nl; nl] ++ lit "This is part " ++ of_nat (i + 1)
       ++ lit " of " ++ of_nat total ++ lit " of a larger document."
       ++ [nl; nl]
  else system_prompt ++ [nl; nl].

(** The [for i, chunk in enumerate(chunks)] loop and the final join. *)
Fixpoint chunk_loop (system_prompt : str) (max_tokens : Z) (temperature : Q)
         (total i : nat) (chunks : list str) (results : list str) : coro :=
  match chunks with
  | [] => Return (join [nl; nl] results)
  | chunk :: rest =>
      let chunk_prompt := chunk_prompt system_prompt i total chunk in
      let estimated_tokens := estimate_tokens chunk_prompt + max_tokens in
      EnqueueAwait chunk_prompt max_tokens temperature estimated_tokens
        (await_result (fun chunk_result =>
           let results := results ++ [chunk_result] in
           if Z.of_nat i <? Z.of_nat total - 1
           then Sleep (5 + inject_Z estimated_tokens / 10000)%Q
                  (chunk_loop system_prompt max_tokens temperature
                     total (S i) rest results)
           else chunk_loop system_prompt max_tokens temperature
                  total (S i) rest results))
  end.

(** The preamble and the user part of a prompt. *)
Definition split_prompt (prompt : str) : str * str :=
  match split1 (lit "Human:") prompt with
  | Some (before, after) => (strip before, lit "Human:" ++ after)
  | None => ([], prompt)
  end.

(** The chunks [_process_large_request] obtains from the splitter. *)
Definition chunks_of (max_chunk_size : Z) (prompt : str) (max_tokens : Z) : list str :=
  let (system_prompt, user_prompt) := split_prompt prompt in
  let chunk_size := max_chunk_size - estimate_tokens system_prompt - max_tokens in
  _split_text user_prompt chunk_size.

Definition _process_large_request (max_chunk_size : Z)
           (prompt : str) (max_tokens : Z) (temperature : Q) : coro :=
  let chunks := chunks_of max_chunk_size prompt max_tokens in
  chunk_loop (fst (split_prompt prompt)) max_tokens temperature
             (length chunks) 0 chunks [].

(** [add_request]. *)
Definition add_request (max_chunk_size : Z)
           (prompt : str) (max_tokens : Z) (temperature : Q) : coro :=
  let estimated_tokens := estimate_tokens prompt + max_tokens in
  if estimated_tokens >? max_chunk_size
  then _process_large_request max_chunk_size prompt max_tokens temperature
  else EnqueueAwait prompt max_tokens temperature estimated_tokens
         (await_result Return).

(** [self.max_chunk_size] as set by [__init__]. *)
Definition default_max_chunk_size : Z := 15000.

(** One enqueued request, as seen from the coordinator. *)
Record call := mkcall {
  call_prompt : str;
  call_max_tokens : Z;
  call_temperature : Q;
  call_estimated_tokens : Z
}.

(** Runs a coroutine to its end.  [futures n] is what the drain loop
    resolves the [n]-th awaited future with.  The result lists the requests
    the coroutine appended to the queue, in order, and how it ended. *)
Fixpoint run (c : coro) (futures : nat -> outcome) (n : nat)
         (enqueued : list call) : list call * outcome :=
  match c with
  | Return text => (enqueued, Ok text)
  | Raise e => (enqueued, Exn e)
  | EnqueueAwait p m t est k =>
      run (k (futures n)) futures (S n) (enqueued ++ [mkcall p m t est])
  | Sleep _ k => run k futures n enqueued
  end.

(** The requests a chunked submission would enqueue if nothing failed. *)
Fixpoint chunk_calls (system_prompt : str) (max_tokens : Z) (temperature : Q)
         (total i : nat) (chunks : list str) : list call :=
  match chunks with
  | [] => []
  | chunk :: rest =>
      let p := chunk_prompt system_prompt i total chunk in
      mkcall p max_tokens temperature (estimate_tokens p + max_tokens)
      :: chunk_calls system_prompt max_tokens temperature total (S i) rest
  end.

End Coordinator.

(* ------------------------------------------------------------------------- *)
(** ** The queue and its drain loops under the asyncio event loop

    asyncio runs one coroutine at a time and switches only at an [await] that
    suspends.  [asyncio.create_task] schedules the new task; the task's
    body starts when the event loop reaches it, after the creating coroutine
    has suspended.  A state of the system therefore holds the attributes of
    [ClaudeAPIQueue], the wall clock, and every [_process_queue] task with
    the suspension point it is parked at.  One event runs one task from a
    suspension point to the next. *)

Module Drain.
Import Str Splitter Coordinator.
Open Scope Q_scope.

(** The dictionary appended to [self.queue]; [future] is the identity of
    the future object. *)
Record request := mkreq {
  prompt : str;
  max_tokens : Z;
  temperature : Q;
  estimated_tokens : Z;
  future : nat;
  added_time : Q
}.

(** Where a [_process_queue] task is parked. *)
Inductive drain :=
| Created                                 (* scheduled, body not started *)
| Sleeping (request : request) (wake : Q) (* in [asyncio.sleep(wait_time)] *)
| Calling (request : request)             (* in [_make_api_call] *)
| Finished                                (* returned *)
| Crashed (e : exn).                      (* an exception left the body *)

(** What the drain loops do, in the order they do it. *)
Inductive obs :=
| Consumed (future : nat) (n : Z) (ok : bool)  (* result of [consume] *)
| ApiCall (future : nat)                       (* network call begins *)
| Resolved (future : nat) (o : outcome).       (* [set_result]/[set_exception] *)

Record sys := mksys {
  queue : list request;
  processing : bool;
  token_bucket : TokenBucket.t;
  max_chunk_size : Z;
  clock : Q;
  tasks : list drain;
  next_future : nat;
  trace : list obs
}.

(** [ClaudeAPIQueue(tokens_per_minute)] built when the clock reads [now]. *)
Definition init (tokens_per_minute : Z) (now : Q) : sys :=
  {| queue := [];
     processing := false;
     token_bucket :=
       TokenBucket.init (inject_Z tokens_per_minute)
                        (inject_Z tokens_per_minute / 60) now;
     max_chunk_size := default_max_chunk_size;
     clock := now;
     tasks := [];
     next_future := 0;
     trace := [] |}.

Definition set_queue (s : sys) (q : list request) : sys :=
  mksys q (processing s) (token_bucket s) (max_chunk_size s) (clock s)
        (tasks s) (next_future s) (trace s).
Definition set_processing (s : sys) (b : bool) : sys :=
  mksys (queue s) b (token_bucket s) (max_chunk_size s) (clock s)
        (tasks s) (next_future s) (trace s).
Definition set_bucket (s : sys) (b : TokenBucket.t) : sys :=
  mksys (queue s) (processing s) b (max_chunk_size s) (clock s)
        (tasks s) (next_future s) (trace s).
Definition set_clock (s : sys) (c : Q) : sys :=
  mksys (queue s) (processing s) (token_bucket s) (max_chunk_size s) c
        (tasks s) (next_future s) (trace s).
Definition log (s : sys) (l : list obs) : sys :=
  mksys (queue s) (processing s) (token_bucket s) (max_chunk_size s) (clock s)
        (tasks s) (next_future s) (trace s ++ l).

Fixpoint update (i : nat) (d : drain) (l : list drain) : list drain :=
  match l, i with
  | [], _ => []
  | _ :: l', O => d :: l'
  | x :: l', S j => x :: update j d l'
  end.

Definition set_task (s : sys) (i : nat) (d : drain) : sys :=
  mksys (queue s) (processing s) (token_bucket s) (max_chunk_size s) (clock s)
        (update i d (tasks s)) (next_future s) (trace s).

(** The block shared by [add_request] and the chunk loop: append the
    request, and create a drain task when [self.processing] is false. *)
Definition enqueue (s : sys) (c : call) : sys :=
  let r := {| prompt := call_prompt c;
              max_tokens := call_max_tokens c;
              temperature := call_temperature c;
              estimated_tokens := call_estimated_tokens c;
              future := next_future s;
              added_time := clock s |} in
  mksys (queue s ++ [r]) (processing s) (token_bucket s) (max_chunk_size s)
        (clock s)
        (if processing s then tasks s else tasks s ++ [Created])
        (S (next_future s)) (trace s).

(** A future is done once it has been resolved. *)
Definition is_done (tr : list obs) (f : nat) : bool :=
  existsb (fun o => match o with
                    | Resolved g _ => Nat.eqb f g
                    | _ => false
                    end) tr.

(** The loop test found the queue empty: [self.processing = False]. *)
Definition finish (s : sys) (i : nat) : sys :=
  set_task (set_processing s false) i Finished.

(** The [try] block up to the network call: pop the head, consume, call.
    On an empty list [pop(0)] raises [IndexError]; the handler sets it on
    the future of [request] (which raises [InvalidStateError] out of the
    task when that future is done), and the loop test then fails. *)
Definition process (s : sys) (i : nat) (request : request) : sys :=
  match queue s with
  | [] =>
      if is_done (trace s) (future request)
      then set_task s i (Crashed InvalidStateError)
      else finish (log s [Resolved (future request) (Exn IndexError)]) i
  | _ :: rest =>
      let (ok, b) := TokenBucket.consume (token_bucket s) (clock s)
                       (inject_Z (estimated_tokens request)) in
      set_task
        (log (set_bucket (set_queue s rest) b)
             [Consumed (future request) (estimated_tokens request) ok;
              ApiCall (future request)])
        i (Calling request)
  end.

(** The head of the [while self.queue] loop, up to the next suspension. *)
Definition loop_head (s : sys) (i : nat) : sys :=
  match queue s with
  | [] => finish s i
  | request :: _ =>
      let (w, b) := TokenBucket.get_wait_time (token_bucket s) (clock s)
                      (inject_Z (estimated_tokens request)) in
      let s1 := set_bucket s b in
      match w with
      | None => set_task s1 i (Crashed ZeroDivisionError)
      | Some wait_time =>
          if Qle_bool wait_time 0
          then process s1 i request
          else set_task s1 i (Sleeping request (clock s + wait_time))
      end
  end.

(** [_process_queue] from its first line to its first suspension: the flag
    is set, then the loop is entered. *)
Definition _process_queue (s : sys) (i : nat) : sys :=
  loop_head (set_processing s true) i.

(** [set_result] or [set_exception] after the network call, then the loop
    goes on.  On a future that is done both raise [InvalidStateError],
    which the handler's own [set_exception] raises again. *)
Definition resolve (s : sys) (i : nat) (request : request) (o : outcome) : sys :=
  if is_done (trace s) (future request)
  then set_task s i (Crashed InvalidStateError)
  else loop_head (log s [Resolved (future request) o]) i.

Inductive event :=
| Submit (c : call)                 (* a caller runs the enqueue block *)
| Tick (dt : Q)                     (* time passes *)
| Start (i : nat)                   (* task [i] begins its body *)
| Wake (i : nat)                    (* the sleep of task [i] is over *)
| Complete (i : nat) (o : outcome). (* the network call of task [i] ends *)

(** One event; [None] when the event cannot happen in this state. *)
Definition step (s : sys) (e : event) : option sys :=
  match e with
  | Submit c => Some (enqueue s c)
  | Tick dt =>
      if Qle_bool 0 dt then Some (set_clock s (clock s + dt)) else None
  | Start i =>
      match nth_error (tasks s) i with
      | Some Created => Some (_process_queue s i)
      | _ => None
      end
  | Wake i =>
      match nth_error (tasks s) i with
      | Some (Sleeping request wake) =>
          if Qle_bool wake (clock s) then Some (process s i request) else None
      | _ => None
      end
  | Complete i o =>
      match nth_error (tasks s) i with
      | Some (Calling request) => Some (resolve s i request o)
      | _ => None
      end
  end.

Fixpoint steps (s : sys) (es : list event) : option sys :=
  match es with
  | [] => Some s
  | e :: es' =>
      match step s e with
      | Some s' => steps s' es'
      | None => None
      end
  end.

Definition is_calling (d : drain) : bool :=
  match d with Calling _ => true | _ => false end.

(** Number of network calls in flight. *)
Definition in_flight (s : sys) : nat :=
  length (filter is_calling (tasks s)).

(** Number of drain loops that have started and not ended. *)
Definition running (s : sys) : nat :=
  length (filter (fun d => match d with
                           | Sleeping _ _ | Calling _ => true
                           | _ => false
                           end) (tasks s)).

(** The futures in the order they were resolved. *)
Fixpoint resolution_order (tr : list obs) : list nat :=
  match tr with
  | [] => []
  | Resolved f _ :: tr' => f :: resolution_order tr'
  | _ :: tr' => resolution_order tr'
  end.

Definition inactive (d : drain) : bool :=
  match d with Finished | Crashed _ => true | _ => false end.

Definition active (d : drain) : bool :=
  match d with Sleeping _ _ | Calling _ => true | _ => false end.

(** The future of the request task [i] has popped and not yet resolved. *)
Definition held (s : sys) (i : nat) : list nat :=
  match nth_error (tasks s) i with
  | Some (Calling r) => [future r]
  | _ => []
  end.

(** The futures resolved so far, then the one in flight, then those of the
    waiting requests. *)
Definition fifo_order (s : sys) (i : nat) : list nat :=
  resolution_order (trace s) ++ held s i ++ map future (queue s).

(** Task [i] is the only drain loop: the flag is set, task [i] is parked at a
    suspension point, every other task has ended, a sleeping loop sleeps for
    the head of the queue, and futures are distinct and already allocated. *)
Record one_loop (s : sys) (i : nat) : Prop := {
  ol_flag : processing s = true;
  ol_task : exists d, nth_error (tasks s) i = Some d /\ active d = true;
  ol_others : forall j d, j <> i -> nth_error (tasks s) j = Some d ->
                          inactive d = true;
  ol_sleep : forall r w, nth_error (tasks s) i = Some (Sleeping r w) ->
                         exists rest, queue s = r :: rest;
  ol_nodup : NoDup (fifo_order s i);
  ol_alloc : Forall (fun f => (f < next_future s)%nat) (fifo_order s i)
}.

(** Task [i] is parked at a suspension point of its loop. *)
Definition alive (s : sys) (i : nat) : bool :=
  match nth_error (tasks s) i with
  | Some d => active d
  | None => false
  end.

(** The future a [Submit] allocates. *)
Definition submitted (s : sys) (e : event) : list nat :=
  match e with
  | Submit _ => [next_future s]
  | _ => []
  end.

(** The request [add_request] enqueues on its direct path. *)
Definition direct_call (p : str) (m : Z) (t : Q) : call :=
  mkcall p m t (estimate_tokens p + m).

(** The flag is set and no drain task is left to clear it or to serve the
    queue. *)
Definition dead (s : sys) : Prop :=
  processing s = true
  /\ forall j d, nth_error (tasks s) j = Some d -> inactive d = true.

(** Requests with a non-negative estimate. *)
Definition est_ok (r : request) : Prop := (0 <= estimated_tokens r)%Z.

Definition drain_ok (d : drain) : Prop :=
  match d with
  | Sleeping r _ | Calling r => est_ok r
  | _ => True
  end.

Definition event_ok (e : event) : Prop :=
  match e with
  | Submit c => (0 <= call_estimated_tokens c)%Z
  | _ => True
  end.

(** The bucket of the queue and the wall clock, as a bucket world. *)
Definition world_of (s : sys) : TokenBucket.world :=
  TokenBucket.mkw (token_bucket s) (clock s).

(** The bucket has capacity [C] and rate [R], its balance is within the
    bounds, and every request known to the system has a non-negative
    estimate. *)
Record healthy (C R : Q) (s : sys) : Prop := {
  h_capacity : TokenBucket.capacity (token_bucket s) = C;
  h_rate : TokenBucket.refill_rate (token_bucket s) = R;
  h_bounded : TokenBucket.bounded (world_of s);
  h_queue : Forall est_ok (queue s);
  h_tasks : Forall drain_ok (tasks s)
}.

(** Nothing is going on: the flag is clear, the queue is empty, every drain
    task has ended, and the futures resolved are distinct and allocated. *)
Record idle (s : sys) : Prop := {
  idle_flag : processing s = false;
  idle_queue : queue s = [];
  idle_tasks : forall j d, nth_error (tasks s) j = Some d -> inactive d = true;
  idle_nodup : NoDup (resolution_order (trace s));
  idle_alloc : Forall (fun f => (f < next_future s)%nat) (resolution_order (trace s))
}.

(** What is left to do for drain task [i]: two steps for each waiting
    request, one more when a call is in flight. *)
Definition work_left (s : sys) (i : nat) : nat :=
  2 * length (queue s)
  + match nth_error (tasks s) i with
    | Some (Calling _) => 1
    | _ => 0
    end.

(** Events of the drain tasks and of the clock, none of a caller. *)
Definition no_submit (e : event) : Prop :=
  match e with
  | Submit _ => False
  | _ => True
  end.

(** A queue whose first request is in its network call, and the same queue
    after a second request has been enqueued and the first call has
    returned. *)
Definition example_busy : sys :=
  Eval vm_compute in
    match steps (init 30000 0)
                [Submit (direct_call (lit "first prompt") 4000 (2 # 10)); Start 0%nat]
    with
    | Some s => s
    | None => init 30000 0
    end.

Definition example_events : list event :=
  [Submit (direct_call (lit "second prompt") 4000 (2 # 10)); Tick 1;
   Complete 0%nat (Exn RateLimitError)].

(** The busy queue with a second request waiting. *)
Definition example_queued : sys :=
  Eval vm_compute in
    enqueue example_busy (direct_call (lit "second prompt") 4000 (2 # 10)).

(** A queue built with a budget of zero, after its drain task has died. *)
Definition example_dead : sys :=
  Eval vm_compute in
    match steps (init 0 0)
                [Submit (direct_call (lit "hello") 100 (2 # 10)); Start 0%nat]
    with
    | Some s => s
    | None => init 0 0
    end.

Definition example_later : sys :=
  Eval vm_compute in
    match steps example_busy example_events with
    | Some s => s
    | None => example_busy
    end.

End Drain.

(* ------------------------------------------------------------------------- *)
(** ** Transcript segments ([app/services/vtt_parser.py])

    The analysis pipeline builds its prompts from transcript segments:
    [parse_vtt] reads them from captions, [merge_consecutive_segments] joins
    runs of one speaker, [format_transcript_for_claude] prints them.
    Segments are mutable objects; [merge_consecutive_segments] writes to the
    objects of the list it is given.  Objects are therefore references into
    a heap. *)

Module Vtt.
Import Str.

(** [TranscriptSegment] of [app/models/schemas.py]. *)
Record TranscriptSegment := mkseg {
  start_time : str;
  end_time : str;
  speaker : option str;
  text : str
}.

(** [==] on [Optional[str]]. *)
Definition speaker_eq_dec (a b : option str) : {a = b} + {a <> b}.
Proof. decide equality. apply list_eq_dec. apply ascii_dec. Defined.

Definition ref := nat.
Definition heap := ref -> TranscriptSegment.

Definition upd (h : heap) (r : ref) (v : TranscriptSegment) : heap :=
  fun x => if Nat.eqb x r then v else h x.

(** The state of the loop: the heap, [merged_segments], [current_segment]. *)
Definition merge_state := (heap * list ref * ref)%type.

(** Body of [for segment in segments[1:]]. *)
Definition merge_step (st : merge_state) (segment : ref) : merge_state :=
  let '(h, merged_segments, current_segment) := st in
  if speaker_eq_dec (speaker (h segment)) (speaker (h current_segment))
  then
    let c := h current_segment in
    let h1 := upd h current_segment
                  (mkseg (start_time c) (end_time (h segment)) (speaker c) (text c)) in
    let c1 := h1 current_segment in
    let h2 := upd h1 current_segment
                  (mkseg (start_time c1) (end_time c1) (speaker c1)
                         (text c1 ++ [sp] ++ text (h1 segment))) in
    (h2, merged_segments, current_segment)
  else (h, merged_segments ++ [current_segment], segment).

(** [merge_consecutive_segments]: the heap after the call and the list
    returned. *)
Definition merge_consecutive_segments (h : heap) (segments : list ref)
  : heap * list ref :=
  match segments with
  | [] => (h, [])
  | first :: rest =>
      let '(h', merged_segments, current_segment) :=
        fold_left merge_step rest (h, [], first) in
      (h', merged_segments ++ [current_segment])
  end.

(** The speaker and text [parse_vtt] takes from the text of a caption.  The
    regular expression (a lazy group, a colon, optional white space, a greedy
    group, with DOTALL) matches when the text holds a colon: it cuts at the
    first colon and skips the white space after it; both groups are then
    stripped. *)
Definition extract_speaker (text : str) : option str * str :=
  match split1 [":"%char] text with
  | Some (before, after) => (Some (strip before), strip (lstrip after))
  | None => (None, text)
  end.

(** [parse_vtt] on the captions [webvtt.read] returns, each given by its
    start, its end and its text. *)
Definition parse_vtt (captions : list (str * str * str)) : list TranscriptSegment :=
  map (fun c => let '(start, stop, text) := c in
                let (speaker, text) := extract_speaker text in
                mkseg start stop speaker text) captions.

(** The segments a run of one speaker starting with [cur] and followed by
    [l] merges into, as values. *)
Fixpoint merge_from (cur : TranscriptSegment) (l : list TranscriptSegment)
  : list TranscriptSegment :=
  match l with
  | [] => [cur]
  | s :: l' =>
      if speaker_eq_dec (speaker s) (speaker cur)
      then merge_from (mkseg (start_time cur) (end_time s) (speaker cur)
                             (text cur ++ [sp] ++ text s)) l'
      else cur :: merge_from s l'
  end.

(** No two neighbours are equal. *)
Fixpoint distinct_neighbours (l : list (option str)) : Prop :=
  match l with
  | a :: l' =>
      match l' with
      | b :: _ => a <> b
      | [] => True
      end /\ distinct_neighbours l'
  | [] => True
  end.

(** No white space at either end. *)
Definition trimmed (s : str) : Prop :=
  match s with
  | c :: _ => is_space c = false
  | [] => True
  end
  /\ match rev s with
     | c :: _ => is_space c = false
     | [] => True
     end.

End Vtt.

(* ------------------------------------------------------------------------- *)
(** * Properties of the token bucket *)

Module TokenBucketFacts.
Import TokenBucket.
Open Scope Q_scope.

Lemma refill_capacity b now : capacity (refill b now) = capacity b.
Proof. reflexivity. Qed.

Lemma refill_rate_same b now : refill_rate (refill b now) = refill_rate b.
Proof. reflexivity. Qed.

Lemma refill_tokens b now :
  tokens (refill b now)
  = Qmin (capacity b) (tokens b + (now - last_refill b) * refill_rate b).
Proof. reflexivity. Qed.

Lemma consume_true b now n :
  Qle_bool n (tokens (refill b now)) = true ->
  consume b now n
  = (true, mk (capacity b) (refill_rate b) (tokens (refill b now) - n) now).
Proof. intros H. unfold consume. rewrite H. reflexivity. Qed.

Lemma consume_false b now n :
  Qle_bool n (tokens (refill b now)) = false ->
  consume b now n = (false, refill b now).
Proof. intros H. unfold consume. rewrite H. reflexivity. Qed.

Lemma get_wait_time_bucket b now n : snd (get_wait_time b now n) = refill b now.
Proof.
  unfold get_wait_time.
  destruct (Qle_bool n (tokens (refill b now))); [reflexivity|].
  destruct (Qeq_bool (refill_rate (refill b now)) 0); reflexivity.
Qed.

(** The constants of a bucket are never written after [__init__]. *)
Lemma apply_constants w o :
  capacity (bucket (apply w o)) = capacity (bucket w) /\
  refill_rate (bucket (apply w o)) = refill_rate (bucket w).
Proof.
  destruct o as [dt| |n|n]; simpl; try (split; reflexivity).
  - unfold consume.
    destruct (Qle_bool n (tokens (refill (bucket w) (clock w)))); split; reflexivity.
  - rewrite get_wait_time_bucket. split; reflexivity.
Qed.

Lemma run_constants ops : forall w,
  capacity (bucket (run w ops)) = capacity (bucket w) /\
  refill_rate (bucket (run w ops)) = refill_rate (bucket w).
Proof.
  induction ops as [|o ops IH]; intros w; simpl; [split; reflexivity|].
  destruct (IH (apply w o)) as [Hc Hr].
  destruct (apply_constants w o) as [Hc' Hr'].
  split; congruence.
Qed.

(** A refill keeps the balance within the bounds when the clock is not
    behind the last refill and the rate is not negative. *)
Lemma refill_bounds b now :
  0 <= capacity b -> 0 <= refill_rate b ->
  0 <= tokens b -> last_refill b <= now ->
  0 <= tokens (refill b now) <= capacity b.
Proof.
  intros Hc Hr Ht Hn. rewrite refill_tokens.
  assert (He : 0 <= (now - last_refill b) * refill_rate b).
  { apply Qmult_le_0_compat; [lra|assumption]. }
  split.
  - apply Q.min_glb; lra.
  - apply Q.le_min_l.
Qed.

Lemma apply_bounded w o :
  0 <= capacity (bucket w) -> 0 <= refill_rate (bucket w) ->
  op_ok o -> bounded w -> bounded (apply w o).
Proof.
  intros Hc Hr Hok [[H0 HC] Hl].
  pose proof (@refill_bounds (bucket w) (clock w) Hc Hr H0 Hl) as [R0 RC].
  remember (refill (bucket w) (clock w)) as b1 eqn:Eb1.
  assert (Hl1 : last_refill b1 = clock w) by (subst b1; reflexivity).
  assert (Hc1 : capacity b1 = capacity (bucket w)) by (subst b1; reflexivity).
  destruct o as [dt| |n|n]; simpl in Hok; unfold bounded; cbn [apply bucket clock].
  - repeat split; try assumption. lra.
  - rewrite <- Eb1, Hl1, Hc1. repeat split; try assumption. lra.
  - destruct (Qle_bool n (tokens b1)) eqn:E; subst b1.
    + rewrite (consume_true _ _ _ E). cbn [snd tokens capacity last_refill].
      apply Qle_bool_iff in E. repeat split; lra.
    + rewrite (consume_false _ _ _ E). cbn [snd]. rewrite Hl1, Hc1.
      repeat split; try assumption. lra.
  - rewrite get_wait_time_bucket, <- Eb1, Hl1, Hc1.
    repeat split; try assumption. lra.
Qed.

Lemma run_bounded ops : forall w,
  0 <= capacity (bucket w) -> 0 <= refill_rate (bucket w) ->
  Forall op_ok ops -> bounded w -> bounded (run w ops).
Proof.
  induction ops as [|o ops IH]; intros w Hc Hr Hall Hb; simpl; [assumption|].
  inversion Hall as [|? ? Ho Hrest]; subst.
  destruct (apply_constants w o) as [Ec Er].
  apply IH; try assumption.
  - rewrite Ec. assumption.
  - rewrite Er. assumption.
  - apply apply_bounded; assumption.
Qed.

(** C2.  A bucket created with capacity [C >= 0] and a refill rate [>= 0]
    starts with balance [C]; after every prefix of a sequence of refills,
    consumptions of non-negative amounts, wait-time queries and
    non-negative advances of the clock, the balance satisfies
    [0 <= tokens <= C]. *)
Theorem bucket_bounds (C rate t0 : Q) (ops : list op) (k : nat) :
  0 <= C -> 0 <= rate -> Forall op_ok ops ->
  let w := run (mkw (init C rate t0) t0) (firstn k ops) in
  0 <= tokens (bucket w) <= C.
Proof.
  intros HC Hr Hall w.
  assert (Hpre : Forall op_ok (firstn k ops)).
  { apply Forall_forall. intros o Ho.
    rewrite Forall_forall in Hall. apply Hall.
    rewrite <- (firstn_skipn k ops). apply in_or_app. left. assumption. }
  assert (Hb : bounded w).
  { apply run_bounded; simpl; try assumption.
    unfold bounded; simpl. repeat split; lra. }
  destruct (run_constants (firstn k ops) (mkw (init C rate t0) t0)) as [Ec _].
  simpl in Ec. destruct Hb as [Hb _]. fold w in Ec. rewrite Ec in Hb. exact Hb.
Qed.

(** A run with the numbers of the spec's scenario: capacity 100, ten tokens
    a second. *)
Lemma bucket_bounds_witness :
  let w := run (mkw (init 100 10 0) 0)
               (firstn 4 [Consume 80; Consume 30; Advance 1; Consume 30]) in
  0 <= tokens (bucket w) <= 100.
Proof.
  apply (@bucket_bounds 100 10 0 [Consume 80; Consume 30; Advance 1; Consume 30] 4).
  - lra.
  - lra.
  - repeat constructor; simpl; lra.
Defined.

(** C3.  [consume(n)] first refills; measured against the refilled balance
    it either succeeds and the balance drops by exactly [n], or it fails
    and the bucket is the refilled bucket, untouched.  It succeeds exactly
    when [n] is at most the refilled balance; capacity and rate are never
    changed. *)
Theorem consume_atomic (b : t) (now n : Q) :
  let b1 := refill b now in
  let r := consume b now n in
  ((fst r = true /\ n <= tokens b1 /\ tokens (snd r) == tokens b1 - n)
   \/ (fst r = false /\ ~ n <= tokens b1 /\ snd r = b1))
  /\ capacity (snd r) = capacity b
  /\ refill_rate (snd r) = refill_rate b
  /\ last_refill (snd r) = now.
Proof.
  intros b1 r. unfold r, b1.
  destruct (Qle_bool n (tokens (refill b now))) eqn:E.
  - rewrite (consume_true _ _ _ E). cbn [fst snd]. split; [left|auto].
    apply Qle_bool_iff in E. split; [reflexivity|]. split; [exact E|reflexivity].
  - rewrite (consume_false _ _ _ E). cbn [fst snd]. split; [right|auto].
    split; [reflexivity|]. split; [|reflexivity].
    intros H. apply Qle_bool_iff in H. congruence.
Qed.

(** When no time has passed since the last refill and the balance is within
    the capacity, the refill inside [consume] changes nothing: a failed
    [consume] leaves the balance as it was before the call. *)
Lemma consume_fail_unchanged (b : t) (n : Q) :
  tokens b <= capacity b ->
  fst (consume b (last_refill b) n) = false ->
  tokens (snd (consume b (last_refill b) n)) == tokens b.
Proof.
  intros Hc. unfold consume.
  destruct (Qle_bool n (tokens (refill b (last_refill b)))); simpl; [discriminate|].
  intros _. rewrite Q.min_r; lra.
Qed.


(** C4 at capacity 100, ten tokens a second, a full bucket and a request of
    150 tokens: [get_wait_time(150)] answers 5 seconds, and after exactly
    those 5 seconds [consume(150)] fails, the balance being clamped to the
    capacity. *)
Theorem wait_time_wrong_above_capacity :
  let b := init 100 10 0 in
  let r := get_wait_time b 0 150 in
  fst r = Some (50 / 10)
  /\ fst (consume (snd r) (0 + 50 / 10) 150) = false
  /\ tokens (snd (consume (snd r) (0 + 50 / 10) 150)) == 100.
Proof. vm_compute. repeat split. Qed.

End TokenBucketFacts.

(* ------------------------------------------------------------------------- *)
(** * Properties of the string operations *)

Module StrFacts.
Import Str.

Lemma is_prefix_app p : forall s,
  is_prefix p s = true -> s = p ++ skipn (length p) s.
Proof.
  induction p as [|a p IH]; intros s H; [reflexivity|].
  destruct s as [|b s]; [discriminate|]. simpl in H.
  apply andb_prop in H as [Hab Hp].
  apply Ascii.eqb_eq in Hab. subst b. simpl. f_equal. apply IH. exact Hp.
Qed.

Lemma split_go_skip sep : forall s k,
  split_go sep k s = split_go sep 0 (skipn k s).
Proof.
  induction s as [|c s IH]; intros k.
  - destruct k; reflexivity.
  - destruct k as [|k]; [reflexivity|]. simpl. apply IH.
Qed.

Lemma split_go_nonempty sep : forall s k, split_go sep k s <> [].
Proof.
  induction s as [|c s IH]; intros k; simpl; [discriminate|].
  destruct k as [|k]; [|apply IH].
  destruct (is_prefix sep (c :: s)); [discriminate|].
  specialize (IH 0%nat). destruct (split_go sep 0 s); [contradiction|discriminate].
Qed.

Lemma join_cons sep p l :
  l <> [] -> join sep (p :: l) = p ++ sep ++ join sep l.
Proof. destruct l; [contradiction|reflexivity]. Qed.

Lemma join_cons_head sep c l :
  l <> [] -> join sep (cons_head c l) = c :: join sep l.
Proof.
  destruct l as [|p ps]; [contradiction|]. intros _.
  destruct ps; reflexivity.
Qed.

(** Joining the pieces of a split with the separator gives the text back. *)
Lemma join_split_len sep : sep <> [] ->
  forall n s, (length s <= n)%nat -> join sep (split sep s) = s.
Proof.
  intros Hsep. unfold split.
  induction n as [|n IH]; intros s Hn.
  - destruct s; [reflexivity|simpl in Hn; lia].
  - destruct s as [|c s]; [reflexivity|]. simpl in Hn. simpl split_go.
    destruct (is_prefix sep (c :: s)) eqn:E.
    + rewrite join_cons by apply split_go_nonempty.
      rewrite split_go_skip.
      pose proof (is_prefix_app _ _ E) as Hs.
      destruct sep as [|a sep']; [contradiction|].
      simpl in Hs. injection Hs as Hc Hs.
      replace (length (a :: sep') - 1)%nat with (length sep') by (simpl; lia).
      rewrite IH.
      * simpl. f_equal; [symmetry; exact Hc|].
        rewrite Hs at 2. reflexivity.
      * rewrite length_skipn. lia.
    + rewrite join_cons_head by apply split_go_nonempty.
      f_equal. apply IH. lia.
Qed.

Lemma join_split sep s : sep <> [] -> join sep (split sep s) = s.
Proof. intros H. apply (join_split_len sep H (length s)). lia. Qed.

Lemma concat_sep sep : forall l,
  l <> [] -> concat (map (fun p => p ++ sep) l) = join sep l ++ sep.
Proof.
  induction l as [|p l IH]; [contradiction|]. intros _.
  destruct l as [|q l].
  - simpl. rewrite app_nil_r. reflexivity.
  - rewrite join_cons by discriminate.
    change (concat (map (fun p0 => p0 ++ sep) (p :: q :: l)))
      with ((p ++ sep) ++ concat (map (fun p0 => p0 ++ sep) (q :: l))).
    rewrite IH by discriminate. rewrite <- !app_assoc. reflexivity.
Qed.

Lemma in_cons_head c l w :
  In w (cons_head c l) -> exists w', (w = c :: w' \/ w = w') /\ (In w' l \/ w' = []).
Proof.
  destruct l as [|p ps]; simpl.
  - intros [<-|[]]. exists []. auto.
  - intros [<-|H].
    + exists p. auto.
    + exists w. auto.
Qed.

(** The characters of a piece come from the text that was split. *)
Lemma split_go_chars sep : forall s k w x,
  In w (split_go sep k s) -> In x w -> In x s.
Proof.
  induction s as [|c s IH]; intros k w x Hw Hx; simpl in Hw.
  - destruct Hw as [<-|[]]. exact Hx.
  - destruct k as [|k].
    + destruct (is_prefix sep (c :: s)).
      * destruct Hw as [<-|Hw]; [destruct Hx|]. right. eapply IH; eassumption.
      * apply in_cons_head in Hw as [w' [[->| ->] [Hin| ->]]].
        -- destruct Hx as [<-|Hx]; [left; reflexivity|right; eapply IH; eassumption].
        -- destruct Hx as [<-|[]]. left; reflexivity.
        -- right. eapply IH; eassumption.
        -- destruct Hx.
    + right. eapply IH; eassumption.
Qed.

(** A piece of a split on one character does not contain that character. *)
Lemma split_char_free c : forall s w,
  In w (split [c] s) -> ~ In c w.
Proof.
  unfold split. induction s as [|a s IH]; intros w Hw; simpl in Hw.
  - destruct Hw as [<-|[]]. intros [].
  - rewrite andb_true_r in Hw. destruct (Ascii.eqb c a) eqn:E.
    + destruct Hw as [<-|Hw]; [intros []|]. apply IH. exact Hw.
    + apply Ascii.eqb_neq in E.
      apply in_cons_head in Hw as [w' [[->| ->] [Hin| ->]]].
      * intros [H|H]; [congruence|]. exact (IH _ Hin H).
      * intros [H|[]]. congruence.
      * apply IH. exact Hin.
      * intros [].
Qed.

End StrFacts.

(* ------------------------------------------------------------------------- *)
(** * Properties of the splitter *)

Module SplitterFacts.
Import Str Splitter StrFacts.
Open Scope Z_scope.

Lemma len_app a b : len (a ++ b) = len a + len b.
Proof. unfold len. rewrite length_app. lia. Qed.

Lemma len_nonneg a : 0 <= len a.
Proof. unfold len. lia. Qed.

Lemma content_flush st : content (flush st) = content st.
Proof.
  destruct st as [chunks cur]. unfold flush, content. simpl.
  destruct cur as [|c cur]; [reflexivity|]. simpl.
  rewrite concat_app. simpl. rewrite !app_nil_r. reflexivity.
Qed.

Lemma snd_flush st : snd (flush st) = [].
Proof. destruct st as [chunks [|c cur]]; reflexivity. Qed.

Lemma concat_flush st : concat (fst (flush st)) = content st.
Proof.
  rewrite <- content_flush. unfold content. rewrite snd_flush, app_nil_r.
  reflexivity.
Qed.

(** A loop whose body appends [g x] to the content appends them all. *)
Lemma content_fold (f : acc -> str -> acc) (g : str -> str) :
  (forall st x, content (f st x) = content st ++ g x) ->
  forall l st, content (fold_left f l st) = content st ++ concat (map g l).
Proof.
  intros Hf. induction l as [|x l IH]; intros st; simpl.
  - rewrite app_nil_r. reflexivity.
  - rewrite IH, Hf, <- app_assoc. reflexivity.
Qed.

Lemma content_word_step m st w :
  content (word_step m st w) = content st ++ (w ++ [sp]).
Proof.
  destruct st as [chunks cur]. unfold word_step, content.
  destruct (len cur + len w + 1 >? m); simpl.
  - rewrite concat_app. simpl. rewrite app_nil_r. reflexivity.
  - rewrite !app_assoc. reflexivity.
Qed.

Lemma content_sentence_step m st s :
  content (sentence_step m st s) = content st ++ sentence_pieces m s.
Proof.
  unfold sentence_step, sentence_pieces.
  destruct (len (snd st) + len s >? m) eqn:E1.
  - destruct (len s >? m).
    + unfold word_pieces.
      rewrite (content_fold (word_step m) (fun w => w ++ [sp])
                 (content_word_step m)).
      rewrite content_flush. reflexivity.
    + rewrite <- (content_flush st). unfold content at 1 2. simpl.
      rewrite snd_flush, app_nil_r. reflexivity.
  - destruct (len s >? m) eqn:E.
    + exfalso. pose proof (len_nonneg (snd st)). ztest. lia.
    + unfold content. simpl. rewrite app_assoc. reflexivity.
Qed.

Lemma content_paragraph_step m st p :
  content (paragraph_step m st p) = content st ++ paragraph_pieces m p.
Proof.
  unfold paragraph_step, paragraph_pieces.
  destruct (len (snd st) + len p >? m) eqn:E1.
  - destruct (len p >? m).
    + rewrite (content_fold (sentence_step m) (sentence_pieces m)
                 (content_sentence_step m)).
      rewrite content_flush. reflexivity.
    + rewrite <- (content_flush st). unfold content at 1 2. simpl.
      rewrite snd_flush, app_nil_r. reflexivity.
  - destruct (len p >? m) eqn:E.
    + exfalso. pose proof (len_nonneg (snd st)). ztest. lia.
    + unfold content. simpl. rewrite app_assoc. reflexivity.
Qed.

(** The chunks of an over-budget text concatenate to its pieces. *)
Lemma split_text_pieces text max_tokens :
  max_tokens * 4 < len text ->
  concat (_split_text text max_tokens) = pieces (max_tokens * 4) text.
Proof.
  intros H. unfold _split_text.
  destruct (len text <=? max_tokens * 4) eqn:E; [ztest; lia|].
  rewrite concat_flush.
  rewrite (content_fold (paragraph_step (max_tokens * 4))
             (paragraph_pieces (max_tokens * 4))
             (content_paragraph_step (max_tokens * 4))).
  reflexivity.
Qed.

(** When every paragraph fits, the pieces are the text and one more
    paragraph separator. *)
Lemma pieces_paragraphs m text :
  Forall (fun p => len p <= m) (split [nl; nl] text) ->
  pieces m text = text ++ [nl; nl].
Proof.
  intros Hall. unfold pieces.
  rewrite (map_ext_in _ (fun p => p ++ [nl; nl])).
  - rewrite concat_sep by apply split_go_nonempty.
    rewrite join_split by discriminate. reflexivity.
  - intros p Hp. rewrite Forall_forall in Hall. specialize (Hall p Hp).
    unfold paragraph_pieces. destruct (len p >? m) eqn:E; [ztest; lia|reflexivity].
Qed.

(** C5, as the code has it.  A text within the budget is returned as the
    single chunk, unchanged.  A text over the budget is emitted piece by
    piece, in order, each piece followed by the separator the loops append:
    the chunks concatenate to [pieces]; when every paragraph fits the budget
    that is the original text followed by one extra blank-line separator. *)
Theorem split_text_concat (text : str) (max_tokens : Z) :
  (len text <= max_tokens * 4 -> _split_text text max_tokens = [text])
  /\ (max_tokens * 4 < len text ->
      concat (_split_text text max_tokens) = pieces (max_tokens * 4) text)
  /\ (max_tokens * 4 < len text ->
      Forall (fun p => len p <= max_tokens * 4) (split [nl; nl] text) ->
      concat (_split_text text max_tokens) = text ++ [nl; nl]).
Proof.
  split; [|split].
  - intros H. unfold _split_text.
    destruct (len text <=? max_tokens * 4) eqn:E; [reflexivity|ztest; lia].
  - apply split_text_pieces.
  - intros H Hall. rewrite split_text_pieces by exact H.
    apply pieces_paragraphs. exact Hall.
Qed.

(** Two paragraphs of four letters and a budget of two tokens (eight
    characters). *)
Lemma split_text_concat_witness :
  let text := lit "aaaa" ++ [nl; nl] ++ lit "bbbb" in
  concat (_split_text text 2) = text ++ [nl; nl]
  /\ _split_text (lit "aaaa") 2 = [lit "aaaa"].
Proof.
  intros text.
  destruct (split_text_concat text 2) as [_ [_ H3]].
  destruct (split_text_concat (lit "aaaa") 2) as [H1 _].
  split.
  - apply H3.
    + vm_compute. reflexivity.
    + repeat constructor; vm_compute; discriminate.
  - apply H1. vm_compute. discriminate.
Defined.

(** C5 fails as stated: with a budget of two tokens (eight characters, two
    words' worth) the chunks of ["aaaa\n\nbbbb"] are ["aaaa\n\n"] and
    ["bbbb\n\n"], which do not concatenate to the input. *)
Lemma split_text_roundtrip_counterexample :
  let text := lit "aaaa" ++ [nl; nl] ++ lit "bbbb" in
  _split_text text 2 = [lit "aaaa" ++ [nl; nl]; lit "bbbb" ++ [nl; nl]]
  /\ concat (_split_text text 2) <> text.
Proof. vm_compute. split; [reflexivity|discriminate]. Qed.

Lemma fold_left_inv (P : acc -> Prop) (f : acc -> str -> acc) :
  forall l st,
    (forall st x, In x l -> P st -> P (f st x)) -> P st -> P (fold_left f l st).
Proof.
  induction l as [|x l IH]; intros st Hf Hst; simpl; [exact Hst|].
  apply IH.
  - intros st' y Hy. apply Hf. right. exact Hy.
  - apply Hf; [left; reflexivity|exact Hst].
Qed.

Lemma flush_ok m st : 0 <= m -> acc_ok m st -> acc_ok m (flush st).
Proof.
  intros Hm [Hc Hcur]. destruct st as [chunks cur]. unfold flush. simpl in *.
  destruct cur as [|c cur]; [split; assumption|]. split; simpl.
  - apply Forall_app. split; [assumption|]. constructor; [assumption|constructor].
  - left. unfold len. simpl. lia.
Qed.

Lemma word_step_ok m st w :
  0 <= m -> ~ In sp w -> ~ In nl w -> acc_ok m st -> acc_ok m (word_step m st w).
Proof.
  intros Hm Hsp Hnl [Hc Hcur]. destruct st as [chunks cur]. simpl in *.
  unfold word_step. destruct (len cur + len w + 1 >? m) eqn:E; ztest; split; simpl.
  - apply Forall_app. split; [assumption|]. constructor; [assumption|constructor].
  - destruct (Z_le_gt_dec (len w) m) as [Hw|Hw].
    + left. rewrite len_app. unfold len at 2. simpl. lia.
    + right. exists w. repeat split; try assumption. lia.
  - assumption.
  - left. rewrite !len_app. unfold len at 3. simpl. lia.
Qed.

Lemma sentence_step_ok m st s :
  0 <= m -> ~ In nl s -> acc_ok m st -> acc_ok m (sentence_step m st s).
Proof.
  intros Hm Hnl Hst. unfold sentence_step.
  destruct (len (snd st) + len s >? m) eqn:E1; ztest.
  - destruct (len s >? m) eqn:E2; ztest.
    + apply fold_left_inv; [|apply flush_ok; assumption].
      intros st' w Hw Hst'. apply word_step_ok; try assumption.
      * apply (split_char_free sp s). exact Hw.
      * intros Hx. apply Hnl. exact (split_go_chars _ _ _ _ _ Hw Hx).
    + destruct (flush_ok m st Hm Hst) as [Hc _]. split; simpl; [assumption|].
      left. rewrite len_app. unfold len at 2. simpl. lia.
  - destruct Hst as [Hc _]. split; simpl; [assumption|].
    left. rewrite !len_app. unfold len at 3. simpl. lia.
Qed.

Lemma paragraph_step_ok m st p :
  0 <= m -> acc_ok m st -> acc_ok m (paragraph_step m st p).
Proof.
  intros Hm Hst. unfold paragraph_step.
  destruct (len (snd st) + len p >? m) eqn:E1; ztest.
  - destruct (len p >? m) eqn:E2; ztest.
    + apply fold_left_inv; [|apply flush_ok; assumption].
      intros st' s Hs Hst'. apply sentence_step_ok; try assumption.
      apply (split_char_free nl _ _ Hs).
    + destruct (flush_ok m st Hm Hst) as [Hc _]. split; simpl; [assumption|].
      left. rewrite len_app. unfold len at 2. simpl. lia.
  - destruct Hst as [Hc _]. split; simpl; [assumption|].
    left. rewrite !len_app. unfold len at 3. simpl. lia.
Qed.

Lemma split_text_chunks_ok text max_tokens :
  0 <= max_tokens ->
  Forall (chunk_ok (max_tokens * 4)) (_split_text text max_tokens).
Proof.
  intros Hm. unfold _split_text.
  destruct (len text <=? max_tokens * 4) eqn:E; ztest.
  - constructor; [left; lia|constructor].
  - apply flush_ok; [lia|].
    apply fold_left_inv.
    + intros st p _ Hst. apply paragraph_step_ok; [lia|exact Hst].
    + split; simpl; [constructor|]. left. unfold len. simpl. lia.
Qed.

Lemma estimate_within chunk max_tokens :
  len chunk <= max_tokens * 4 + 2 -> estimate_tokens chunk <= max_tokens + 1.
Proof.
  intros H. unfold estimate_tokens.
  assert (len chunk / 4 < max_tokens + 1); [|lia].
  apply Z.div_lt_upper_bound; lia.
Qed.

(** C6, as the code has it.  For a budget of [max_tokens >= 0] tokens every
    chunk has at most [4 * max_tokens + 2] characters, so its estimated
    cost is at most [max_tokens + 1]; the only other chunks are those made
    of one word longer than [4 * max_tokens] characters and the space
    appended to it. *)
Theorem split_text_bound (text : str) (max_tokens : Z) (chunk : str) :
  0 <= max_tokens ->
  In chunk (_split_text text max_tokens) ->
  (len chunk <= max_tokens * 4 + 2 /\ estimate_tokens chunk <= max_tokens + 1)
  \/ lone_long_word (max_tokens * 4) chunk.
Proof.
  intros Hm Hin.
  pose proof (split_text_chunks_ok text max_tokens Hm) as Hall.
  rewrite Forall_forall in Hall. destruct (Hall chunk Hin) as [H|H].
  - left. split; [exact H|]. apply estimate_within. exact H.
  - right. exact H.
Qed.

(** The first chunk of ["aa bb cc\n\ndd"] under a budget of two tokens. *)
Lemma split_text_bound_witness :
  let chunk := lit "aa bb cc" ++ [nl; nl] in
  (len chunk <= 2 * 4 + 2 /\ estimate_tokens chunk <= 2 + 1)
  \/ lone_long_word (2 * 4) chunk.
Proof.
  apply (split_text_bound (lit "aa bb cc" ++ [nl; nl] ++ lit "dd") 2).
  - lia.
  - vm_compute. left. reflexivity.
Defined.

(** C6 fails as stated: under a budget of two tokens the first chunk of
    ["aa bb cc\n\ndd"] holds three words and a separator, ten characters,
    and its estimated cost is three tokens. *)
Lemma split_text_bound_counterexample :
  let chunk := lit "aa bb cc" ++ [nl; nl] in
  In chunk (_split_text (lit "aa bb cc" ++ [nl; nl] ++ lit "dd") 2)
  /\ estimate_tokens chunk = 3
  /\ ~ estimate_tokens chunk <= 2
  /\ In sp chunk.
Proof.
  vm_compute. repeat split.
  - left. reflexivity.
  - intros H. apply H. reflexivity.
  - do 2 right. left. reflexivity.
Qed.

End SplitterFacts.

(* ------------------------------------------------------------------------- *)
(** * Properties of the coordinator *)

Module CoordinatorFacts.
Import Str Splitter Coordinator.
Open Scope Z_scope.

(** Stripping what was injected in front of a chunk gives the chunk back. *)
Lemma chunk_prompt_strip system_prompt i total chunk :
  chunk_prompt system_prompt i total chunk
  = injected system_prompt i total ++ chunk
  /\ skipn (length (injected system_prompt i total))
           (chunk_prompt system_prompt i total chunk) = chunk.
Proof.
  assert (H : chunk_prompt system_prompt i total chunk
              = injected system_prompt i total ++ chunk).
  { unfold chunk_prompt, injected. destruct (1 <? total)%nat;
      repeat rewrite <- app_assoc; reflexivity. }
  split; [exact H|]. rewrite H. rewrite skipn_app, skipn_all, Nat.sub_diag.
  reflexivity.
Qed.

(** C7, as the code has it.  The estimate is [len(p) // 4 + 1 + m]
    (floor division, plus one token from [estimate_tokens]).  When it is at
    most the ceiling, [add_request] enqueues the prompt itself with that
    estimate and returns what the future is resolved with; when it is above
    the ceiling, [add_request] is [_process_large_request]. *)
Theorem add_request_paths (max_chunk_size : Z) (p : str) (m : Z) (t : Q) :
  let estimated_tokens := len p / 4 + 1 + m in
  (estimated_tokens <= max_chunk_size ->
   add_request max_chunk_size p m t
   = EnqueueAwait p m t estimated_tokens (await_result Return))
  /\ (max_chunk_size < estimated_tokens ->
      add_request max_chunk_size p m t
      = _process_large_request max_chunk_size p m t).
Proof.
  intros est. unfold add_request, estimate_tokens. fold est.
  destruct (est >? max_chunk_size) eqn:E; ztest; split; intros H;
    try reflexivity; lia.
Qed.

(** A four-letter prompt asking for 4000 output tokens: estimate 4002. *)
Lemma add_request_paths_witness :
  add_request default_max_chunk_size (lit "abcd") 4000 (2 # 10)
  = EnqueueAwait (lit "abcd") 4000 (2 # 10) 4002 (await_result Return).
Proof.
  apply (proj1 (add_request_paths default_max_chunk_size (lit "abcd") 4000 (2 # 10))).
  vm_compute. discriminate.
Defined.

(** C7 fails as stated.  For the prompt ["abcd"] and 14999 output tokens,
    [len(p)/4 + m] is 15000, which is not above the ceiling of 15000, yet
    [add_request] takes the chunked path and enqueues two chunk requests;
    and with 4000 output tokens the estimate recorded on the direct path is
    4002, not 4001. *)
Lemma add_request_estimate_counterexample :
  let p := lit "abcd" in
  len p / 4 + 14999 <= default_max_chunk_size
  /\ add_request default_max_chunk_size p 14999 (2 # 10)
     = _process_large_request default_max_chunk_size p 14999 (2 # 10)
  /\ length (fst (run (add_request default_max_chunk_size p 14999 (2 # 10))
                      (fun _ => Ok (lit "r")) 0 [])) = 2%nat
  /\ map call_estimated_tokens
         (fst (run (add_request default_max_chunk_size p 4000 (2 # 10))
                   (fun _ => Ok (lit "r")) 0 []))
     = [4002]
  /\ len p / 4 + 4000 = 4001.
Proof.
  vm_compute. repeat split. discriminate.
Qed.

(** The chunk loop when the futures of the first [k] remaining chunks
    resolve with a value and the next one with an exception. *)
Lemma run_chunk_loop_fail sp m t total futures e : forall chunks i results n enq k,
  (k < length chunks)%nat ->
  (forall j, (j < k)%nat -> exists r, futures (n + j)%nat = Ok r) ->
  futures (n + k)%nat = Exn e ->
  run (chunk_loop sp m t total i chunks results) futures n enq
  = (enq ++ firstn (S k) (chunk_calls sp m t total i chunks), Exn e).
Proof.
  induction chunks as [|chunk rest IH]; intros i results n enq k Hk Hok Hfail.
  - simpl in Hk. lia.
  - cbn [chunk_loop run chunk_calls].
    destruct k as [|k].
    + rewrite Nat.add_0_r in Hfail. rewrite Hfail. simpl. reflexivity.
    + destruct (Hok 0%nat ltac:(lia)) as [r Hr].
      rewrite Nat.add_0_r in Hr. rewrite Hr. cbn [await_result].
      assert (Hrec :
        run (chunk_loop sp m t total (S i) rest (results ++ [r])) futures (S n)
            (enq ++ [mkcall (chunk_prompt sp i total chunk) m t
                       (estimate_tokens (chunk_prompt sp i total chunk) + m)])
        = ((enq ++ [mkcall (chunk_prompt sp i total chunk) m t
                      (estimate_tokens (chunk_prompt sp i total chunk) + m)])
           ++ firstn (S k) (chunk_calls sp m t total (S i) rest), Exn e)).
      { apply IH.
        - simpl in Hk. lia.
        - intros j Hj. destruct (Hok (S j) ltac:(lia)) as [r' Hr'].
          exists r'. rewrite <- Hr'. f_equal. lia.
        - rewrite <- Hfail. f_equal. lia. }
      destruct (Z.of_nat i <? Z.of_nat total - 1); cbn [run];
        rewrite Hrec, <- app_assoc; reflexivity.
Qed.

(** The chunk loop when every future resolves with a value: all chunks are
    enqueued and the values are joined by blank lines. *)
Lemma run_chunk_loop_ok sp m t total futures (rs : nat -> str) :
  forall chunks i results n enq,
  (forall j, (j < length chunks)%nat -> futures (n + j)%nat = Ok (rs (n + j)%nat)) ->
  run (chunk_loop sp m t total i chunks results) futures n enq
  = (enq ++ chunk_calls sp m t total i chunks,
     Ok (join [nl; nl] (results ++ map rs (seq n (length chunks))))).
Proof.
  induction chunks as [|chunk rest IH]; intros i results n enq Hok.
  - simpl. rewrite !app_nil_r. reflexivity.
  - cbn [chunk_loop run chunk_calls].
    pose proof (Hok 0%nat ltac:(simpl; lia)) as Hr.
    rewrite Nat.add_0_r in Hr. rewrite Hr. cbn [await_result].
    assert (Hrec :
      run (chunk_loop sp m t total (S i) rest (results ++ [rs n])) futures (S n)
          (enq ++ [mkcall (chunk_prompt sp i total chunk) m t
                     (estimate_tokens (chunk_prompt sp i total chunk) + m)])
      = ((enq ++ [mkcall (chunk_prompt sp i total chunk) m t
                    (estimate_tokens (chunk_prompt sp i total chunk) + m)])
         ++ chunk_calls sp m t total (S i) rest,
         Ok (join [nl; nl] ((results ++ [rs n])
                            ++ map rs (seq (S n) (length rest)))))).
    { apply IH. intros j Hj.
      replace (S n + j)%nat with (n + S j)%nat by lia.
      apply Hok. simpl. lia. }
    cbn [length seq map].
    destruct (Z.of_nat i <? Z.of_nat total - 1); cbn [run];
      rewrite Hrec, <- !app_assoc; reflexivity.
Qed.

(** C9.  In a chunked submission whose first [k] chunk futures resolve with
    a value and whose next one is resolved with the exception [e], exactly
    the first [k + 1] chunk requests are enqueued, none after the failing
    one, and the submission ends with [e]: no text is returned. *)
Theorem process_large_request_abort
        (max_chunk_size : Z) (prompt : str) (m : Z) (t : Q)
        (futures : nat -> outcome) (k : nat) (e : exn) :
  let chunks := chunks_of max_chunk_size prompt m in
  let calls := chunk_calls (fst (split_prompt prompt)) m t (length chunks) 0 chunks in
  (k < length chunks)%nat ->
  (forall j, (j < k)%nat -> exists r, futures j = Ok r) ->
  futures k = Exn e ->
  run (_process_large_request max_chunk_size prompt m t) futures 0 []
  = (firstn (S k) calls, Exn e).
Proof.
  intros chunks calls Hk Hok Hfail. unfold _process_large_request.
  fold chunks.
  rewrite (run_chunk_loop_fail (fst (split_prompt prompt)) m t (length chunks)
             futures e chunks 0 [] 0 [] k Hk Hok Hfail).
  reflexivity.
Qed.

(** Three paragraphs under a ceiling of 3 tokens give three chunks; the
    second request fails with a rate-limit error. *)
Lemma process_large_request_abort_witness :
  let prompt := lit "aaaa" ++ [nl; nl] ++ lit "bbbb" ++ [nl; nl] ++ lit "cccc" in
  let futures := fun j => if Nat.eqb j 1 then Exn RateLimitError else Ok (lit "r") in
  length (chunks_of 3 prompt 0) = 3%nat
  /\ run (_process_large_request 3 prompt 0 (2 # 10)) futures 0 []
     = (firstn 2 (chunk_calls (fst (split_prompt prompt)) 0 (2 # 10) 3 0
                              (chunks_of 3 prompt 0)),
        Exn RateLimitError).
Proof.
  intros prompt futures. split; [reflexivity|].
  apply (process_large_request_abort 3 prompt 0 (2 # 10) futures 1 RateLimitError).
  - vm_compute. lia.
  - intros j Hj. exists (lit "r"). destruct j as [|j]; [reflexivity|lia].
  - reflexivity.
Defined.

End CoordinatorFacts.

(* ------------------------------------------------------------------------- *)
(** * Properties of the drain loops *)

Module DrainFacts.
Import Str Splitter Coordinator Drain.
Open Scope Q_scope.

(** Enqueueing never sets the flag: [self.processing] becomes true only
    when the body of [_process_queue] starts. *)
Lemma enqueue_keeps_flag s c : processing (enqueue s c) = processing s.
Proof. reflexivity. Qed.

(** While the flag is set no task is created. *)
Lemma enqueue_no_spawn s c :
  processing s = true -> tasks (enqueue s c) = tasks s.
Proof. intros H. unfold enqueue. simpl. rewrite H. reflexivity. Qed.

(** While the flag is clear every enqueue creates a task. *)
Lemma enqueue_spawn s c :
  processing s = false -> tasks (enqueue s c) = tasks s ++ [Created].
Proof. intros H. unfold enqueue. simpl. rewrite H. reflexivity. Qed.

Lemma resolution_order_app tr1 tr2 :
  resolution_order (tr1 ++ tr2) = resolution_order tr1 ++ resolution_order tr2.
Proof.
  induction tr1 as [|o tr1 IH]; [reflexivity|].
  destruct o; simpl; rewrite IH; reflexivity.
Qed.

Lemma is_done_spec tr f : is_done tr f = true <-> In f (resolution_order tr).
Proof.
  induction tr as [|o tr IH]; simpl.
  - split; [discriminate|intros []].
  - destruct o as [g n ok|g|g o]; simpl; try exact IH.
    rewrite orb_true_iff, IH, Nat.eqb_eq. split; intros [H|H]; auto.
Qed.

Lemma nth_error_update_eq d : forall l i,
  (i < length l)%nat -> nth_error (update i d l) i = Some d.
Proof.
  induction l as [|x l IH]; intros i Hi; simpl in Hi; [lia|].
  destruct i as [|i]; [reflexivity|]. simpl. apply IH. lia.
Qed.

Lemma nth_error_update_neq d : forall l i j,
  i <> j -> nth_error (update i d l) j = nth_error l j.
Proof.
  induction l as [|x l IH]; intros i j Hij; [destruct i; reflexivity|].
  destruct i as [|i], j as [|j]; simpl; try reflexivity; try congruence.
  apply IH. congruence.
Qed.

Lemma nth_error_lt (l : list drain) i d : nth_error l i = Some d -> (i < length l)%nat.
Proof. intros H. apply nth_error_Some. congruence. Qed.

(** Among tasks of which all but one have ended, at most one is in a call. *)
Lemma one_calling : forall l i,
  (forall j d, j <> i -> nth_error l j = Some d -> inactive d = true) ->
  (length (filter is_calling l) <= 1)%nat.
Proof.
  induction l as [|x l IH]; intros i H; simpl; [lia|].
  destruct i as [|i].
  - assert (Hl : filter is_calling l = []).
    { clear IH. assert (Hall : forall d, In d l -> inactive d = true).
      { intros d Hd. apply In_nth_error in Hd as [j Hj].
        apply (H (S j) d); [discriminate|exact Hj]. }
      clear H. induction l as [|y l IHl]; [reflexivity|]. simpl.
      pose proof (Hall y (or_introl eq_refl)) as Hy.
      destruct y; try discriminate; simpl; apply IHl; intros d Hd; apply Hall; right; exact Hd. }
    rewrite Hl. destruct (is_calling x); simpl; lia.
  - pose proof (H 0%nat x ltac:(discriminate) eq_refl) as Hx.
    destruct x; try discriminate; simpl; apply (IH i);
      intros j d Hj Hd; (apply (H (S j) d); [congruence|exact Hd]).
Qed.

Lemma one_loop_in_flight s i : one_loop s i -> (in_flight s <= 1)%nat.
Proof. intros H. apply (one_calling (tasks s) i). apply (ol_others s i H). Qed.

Lemma one_loop_same s s' i :
  one_loop s i ->
  processing s' = true ->
  (exists d, nth_error (tasks s') i = Some d /\ active d = true) ->
  (forall j, j <> i -> nth_error (tasks s') j = nth_error (tasks s) j) ->
  (forall r w, nth_error (tasks s') i = Some (Sleeping r w) ->
               exists rest, queue s' = r :: rest) ->
  fifo_order s' i = fifo_order s i ->
  next_future s' = next_future s ->
  one_loop s' i.
Proof.
  intros H Hflag Htask Hoth Hsleep Hf Hn. split; try assumption.
  - intros j d Hj Hd. rewrite Hoth in Hd by exact Hj. exact (ol_others s i H j d Hj Hd).
  - rewrite Hf. exact (ol_nodup s i H).
  - rewrite Hf, Hn. exact (ol_alloc s i H).
Qed.

(** The task an event runs is the single loop. *)
Lemma one_loop_only s i j d :
  one_loop s i -> nth_error (tasks s) j = Some d -> inactive d = false -> j = i.
Proof.
  intros H Hd Hin. destruct (Nat.eq_dec j i) as [E|E]; [exact E|].
  rewrite (ol_others s i H j d E Hd) in Hin. discriminate.
Qed.

(** Popping the head and starting its call keeps the order. *)
Lemma process_pop s i r rest :
  (i < length (tasks s))%nat ->
  queue s = r :: rest ->
  exists ok b,
    process s i r
    = set_task (log (set_bucket (set_queue s rest) b)
                    [Consumed (future r) (estimated_tokens r) ok; ApiCall (future r)])
               i (Calling r).
Proof.
  intros Hi Hq. unfold process. rewrite Hq.
  destruct (TokenBucket.consume (token_bucket s) (clock s)
              (inject_Z (estimated_tokens r))) as [ok b].
  exists ok, b. reflexivity.
Qed.

(** One event of a system in which task [i] is the only drain loop: the order
    of the futures grows at its end by the future a [Submit] allocates and is
    otherwise unchanged; afterwards task [i] is still the only loop, or it
    has returned on an empty queue, or the division by a zero refill rate
    has ended it. *)
Theorem single_loop_fifo s i e s' :
  one_loop s i -> step s e = Some s' ->
  fifo_order s' i = fifo_order s i ++ submitted s e
  /\ (one_loop s' i
      \/ (nth_error (tasks s') i = Some Finished /\ processing s' = false
          /\ queue s' = [])
      \/ nth_error (tasks s') i = Some (Crashed ZeroDivisionError)).
Proof.
  intros Hone Hstep.
  pose proof Hone as [Hflag [d0 [Hd0 Hact]] Hoth Hsleep Hnd Hal].
  pose proof (nth_error_lt _ _ _ Hd0) as Hlen.
  destruct e as [c|dt|j|j|j o]; simpl in Hstep.
  - (* Submit *)
    injection Hstep as <-.
    assert (Ht : tasks (enqueue s c) = tasks s).
    { unfold enqueue. simpl. rewrite Hflag. reflexivity. }
    assert (Hf : fifo_order (enqueue s c) i = fifo_order s i ++ [next_future s]).
    { unfold fifo_order, held. rewrite Ht. unfold enqueue at 1 2. simpl.
      rewrite map_app. simpl. rewrite !app_assoc. reflexivity. }
    split; [exact Hf|]. left. split.
    + exact Hflag.
    + rewrite Ht. exists d0. auto.
    + rewrite Ht. exact Hoth.
    + rewrite Ht. intros r w Hr. destruct (Hsleep r w Hr) as [rest Hq].
      exists (rest ++ [mkreq (call_prompt c) (call_max_tokens c) (call_temperature c)
                         (call_estimated_tokens c) (next_future s) (clock s)]).
      unfold enqueue. simpl. rewrite Hq. reflexivity.
    + rewrite Hf. apply NoDup_app; [exact Hnd|repeat constructor; intros []|].
      intros a Ha [<-|[]]. rewrite Forall_forall in Hal. specialize (Hal _ Ha). lia.
    + rewrite Hf. apply Forall_app. split.
      * eapply Forall_impl; [|exact Hal]. simpl. intros a Ha. lia.
      * repeat constructor.
  - (* Tick *)
    destruct (Qle_bool 0 dt); [|discriminate]. injection Hstep as <-.
    simpl. rewrite app_nil_r. split; [reflexivity|]. left.
    apply (one_loop_same s); try assumption; try reflexivity.
    exists d0. auto.
  - (* Start *)
    destruct (nth_error (tasks s) j) as [[| | | |]|] eqn:Ej; try discriminate.
    pose proof (one_loop_only s i j _ Hone Ej eq_refl) as ->.
    rewrite Ej in Hd0. injection Hd0 as <-. discriminate.
  - (* Wake *)
    destruct (nth_error (tasks s) j) as [[|r w| | |]|] eqn:Ej; try discriminate.
    pose proof (one_loop_only s i j _ Hone Ej eq_refl) as ->.
    destruct (Qle_bool w (clock s)); [|discriminate]. injection Hstep as <-.
    destruct (Hsleep r w Ej) as [rest Hq].
    destruct (process_pop s i r rest Hlen Hq) as [ok [b ->]].
    assert (Hf : fifo_order (set_task (log (set_bucket (set_queue s rest) b)
                    [Consumed (future r) (estimated_tokens r) ok; ApiCall (future r)])
               i (Calling r)) i = fifo_order s i).
    { unfold fifo_order, held. simpl. rewrite nth_error_update_eq by exact Hlen.
      rewrite Ej, Hq, resolution_order_app. simpl. rewrite app_nil_r. reflexivity. }
    simpl submitted. rewrite app_nil_r. split; [exact Hf|]. left.
    apply (one_loop_same s); try assumption; try reflexivity.
    + simpl. rewrite nth_error_update_eq by exact Hlen. eexists; split; reflexivity.
    + intros k Hk. simpl. apply nth_error_update_neq. congruence.
    + intros r0 w0. simpl. rewrite nth_error_update_eq by exact Hlen. discriminate.
  - (* Complete *)
    destruct (nth_error (tasks s) j) as [[| |r| |]|] eqn:Ej; try discriminate.
    pose proof (one_loop_only s i j _ Hone Ej eq_refl) as ->.
    injection Hstep as <-.
    assert (Hheld : held s i = [future r]) by (unfold held; rewrite Ej; reflexivity).
    assert (Hfresh : is_done (trace s) (future r) = false).
    { destruct (is_done (trace s) (future r)) eqn:E; [|reflexivity].
      apply is_done_spec in E. unfold fifo_order in Hnd. rewrite Hheld in Hnd.
      apply NoDup_remove_2 in Hnd. exfalso. apply Hnd. apply in_or_app. left. exact E. }
    unfold resolve. rewrite Hfresh. simpl submitted. rewrite app_nil_r.
    unfold loop_head. cbn [queue log].
    destruct (queue s) as [|r' rest] eqn:Hq.
    + (* the queue is empty: the loop ends *)
      split.
      * unfold fifo_order, held, finish. simpl.
        rewrite nth_error_update_eq by exact Hlen.
        rewrite Hq, Ej, resolution_order_app. simpl. rewrite !app_nil_r. reflexivity.
      * right. left. unfold finish. simpl.
        rewrite nth_error_update_eq by exact Hlen. auto.
    + cbn [token_bucket clock log].
      destruct (TokenBucket.get_wait_time (token_bucket s) (clock s)
                  (inject_Z (estimated_tokens r'))) as [[wt|] b].
      * destruct (Qle_bool wt 0).
        -- (* enough tokens: pop and call *)
           destruct (process_pop (set_bucket (log s [Resolved (future r) o]) b) i r' rest
                       Hlen Hq) as [ok [b' ->]].
           assert (Hf : fifo_order
                     (set_task (log (set_bucket (set_queue
                        (set_bucket (log s [Resolved (future r) o]) b) rest) b')
                        [Consumed (future r') (estimated_tokens r') ok; ApiCall (future r')])
                        i (Calling r')) i = fifo_order s i).
           { unfold fifo_order, held. simpl. rewrite nth_error_update_eq by exact Hlen.
             rewrite Ej, Hq, !resolution_order_app. simpl.
             rewrite app_nil_r, <- app_assoc. reflexivity. }
           split; [exact Hf|]. left.
           apply (one_loop_same s); try assumption; try reflexivity.
           ++ simpl. rewrite nth_error_update_eq by exact Hlen. eexists; split; reflexivity.
           ++ intros k Hk. simpl. apply nth_error_update_neq. congruence.
           ++ intros r0 w0. simpl. rewrite nth_error_update_eq by exact Hlen. discriminate.
        -- (* the loop sleeps for the head of the queue *)
           assert (Hf : fifo_order
                     (set_task (set_bucket (log s [Resolved (future r) o]) b) i
                        (Sleeping r' (clock s + wt))) i = fifo_order s i).
           { unfold fifo_order, held. simpl. rewrite nth_error_update_eq by exact Hlen.
             rewrite Ej, Hq, !resolution_order_app. simpl.
             rewrite <- app_assoc. reflexivity. }
           split; [exact Hf|]. left.
           apply (one_loop_same s); try assumption; try reflexivity.
           ++ simpl. rewrite nth_error_update_eq by exact Hlen. eexists; split; reflexivity.
           ++ intros k Hk. simpl. apply nth_error_update_neq. congruence.
           ++ intros r0 w0. simpl. rewrite nth_error_update_eq by exact Hlen.
              intros H. injection H as <- _. exists rest. exact Hq.
      * (* the division by a zero rate raises *)
        split.
        -- unfold fifo_order, held. simpl. rewrite nth_error_update_eq by exact Hlen.
           rewrite Ej, Hq, !resolution_order_app. simpl.
           rewrite <- app_assoc. reflexivity.
        -- right. right. simpl. apply nth_error_update_eq. exact Hlen.
Qed.

Lemma tasks_process s j r : exists d, tasks (process s j r) = update j d (tasks s).
Proof.
  unfold process. destruct (queue s).
  - destruct (is_done (trace s) (future r)); eexists; reflexivity.
  - destruct (TokenBucket.consume _ _ _). eexists; reflexivity.
Qed.

Lemma tasks_loop_head s j : exists d, tasks (loop_head s j) = update j d (tasks s).
Proof.
  unfold loop_head. destruct (queue s) as [|r rest] eqn:Hq.
  - eexists; reflexivity.
  - destruct (TokenBucket.get_wait_time _ _ _) as [[wt|] b].
    + destruct (Qle_bool wt 0).
      * apply (tasks_process (set_bucket s b) j r).
      * eexists; reflexivity.
    + eexists; reflexivity.
Qed.

Lemma tasks_resolve s j r o : exists d, tasks (resolve s j r o) = update j d (tasks s).
Proof.
  unfold resolve. destruct (is_done (trace s) (future r)).
  - eexists; reflexivity.
  - apply (tasks_loop_head (log s [Resolved (future r) o]) j).
Qed.

(** A task that has ended stays as it is. *)
Lemma ended_stays s e s' i d :
  step s e = Some s' ->
  nth_error (tasks s) i = Some d -> inactive d = true ->
  nth_error (tasks s') i = Some d.
Proof.
  intros Hstep Hd Hin.
  destruct e as [c|dt|j|j|j o]; simpl in Hstep.
  - injection Hstep as <-. unfold enqueue. simpl.
    destruct (processing s); [exact Hd|].
    rewrite nth_error_app1; [exact Hd|]. apply nth_error_Some. congruence.
  - destruct (Qle_bool 0 dt); [|discriminate]. injection Hstep as <-. exact Hd.
  - destruct (nth_error (tasks s) j) as [[| | | |]|] eqn:Ej; try discriminate.
    injection Hstep as <-.
    unfold _process_queue.
  destruct (tasks_loop_head (set_processing s true) j) as [d' ->]. simpl.
    rewrite nth_error_update_neq; [exact Hd|].
    intros ->. rewrite Ej in Hd. injection Hd as <-. discriminate.
  - destruct (nth_error (tasks s) j) as [[|r w| | |]|] eqn:Ej; try discriminate.
    destruct (Qle_bool w (clock s)); [|discriminate]. injection Hstep as <-.
    destruct (tasks_process s j r) as [d' ->].
    rewrite nth_error_update_neq; [exact Hd|].
    intros ->. rewrite Ej in Hd. injection Hd as <-. discriminate.
  - destruct (nth_error (tasks s) j) as [[| |r| |]|] eqn:Ej; try discriminate.
    injection Hstep as <-.
    destruct (tasks_resolve s j r o) as [d' ->].
    rewrite nth_error_update_neq; [exact Hd|].
    intros ->. rewrite Ej in Hd. injection Hd as <-. discriminate.
Qed.

Lemma ended_stays_steps es : forall s s' i d,
  steps s es = Some s' ->
  nth_error (tasks s) i = Some d -> inactive d = true ->
  nth_error (tasks s') i = Some d.
Proof.
  induction es as [|e es IH]; intros s s' i d Hsteps Hd Hin; simpl in Hsteps.
  - injection Hsteps as <-. exact Hd.
  - destruct (step s e) as [s1|] eqn:E; [|discriminate].
    apply (IH s1 s' i d Hsteps); [|exact Hin].
    exact (ended_stays s e s1 i d E Hd Hin).
Qed.

(** Along any run in which task [i] is still at work at the end, it has been
    the only drain loop throughout, and the order of the futures (resolved,
    in flight, waiting) has only grown at its end. *)
Theorem single_loop_run es : forall s s' i,
  one_loop s i -> steps s es = Some s' -> alive s' i = true ->
  one_loop s' i /\ exists new, fifo_order s' i = fifo_order s i ++ new.
Proof.
  induction es as [|e es IH]; intros s s' i Hone Hsteps Halive; simpl in Hsteps.
  - injection Hsteps as <-. split; [exact Hone|]. exists []. rewrite app_nil_r. reflexivity.
  - destruct (step s e) as [s1|] eqn:E; [|discriminate].
    destruct (single_loop_fifo s i e s1 Hone E) as [Hf [H1|[[Hfin _]|Hcr]]].
    + destruct (IH s1 s' i H1 Hsteps Halive) as [H' [new Hnew]].
      split; [exact H'|]. exists (submitted s e ++ new).
      rewrite Hnew, Hf, app_assoc. reflexivity.
    + exfalso. unfold alive in Halive.
      rewrite (ended_stays_steps es s1 s' i _ Hsteps Hfin eq_refl) in Halive. discriminate.
    + exfalso. unfold alive in Halive.
      rewrite (ended_stays_steps es s1 s' i _ Hsteps Hcr eq_refl) in Halive. discriminate.
Qed.

(** One caller enqueues on an idle queue and the drain task starts before
    anyone else enqueues: task 0 is the only drain loop. *)
Lemma one_loop_after_start :
  exists s,
    steps (init 30000 0)
          [Submit (direct_call (lit "first prompt") 4000 (2 # 10)); Start 0%nat]
    = Some s
    /\ one_loop s 0.
Proof.
  eexists. split; [vm_compute; reflexivity|]. split.
  - reflexivity.
  - eexists. split; reflexivity.
  - intros [|[|j]] d Hj Hd; try discriminate. contradiction.
  - intros r w H. discriminate.
  - repeat constructor; simpl; intros [].
  - repeat constructor.
Qed.

(** A second request enqueued while that loop is in its first call is served
    by the same loop, after the first, whatever the calls return. *)
Example single_loop_example :
  option_map (fun s => (resolution_order (trace s), in_flight s, length (tasks s)))
    (steps (init 30000 0)
       [Submit (direct_call (lit "first prompt") 4000 (2 # 10)); Start 0%nat;
        Submit (direct_call (lit "second prompt") 4000 (2 # 10)); Tick 1;
        Complete 0%nat (Ok (lit "a")); Tick 1; Complete 0%nat (Exn RateLimitError)])
  = Some ([0%nat; 1%nat], 0%nat, 1%nat).
Proof. vm_compute. reflexivity. Qed.

(** C1 on two callers that enqueue before the first drain task has started
    (two tasks gathered on an idle queue): each caller finds
    [self.processing] false and creates a drain task; both tasks start, each
    pops one request, and two network calls are in flight at once. *)
Theorem two_calls_in_flight :
  let c1 := direct_call (lit "first prompt") 4000 (2 # 10) in
  let c2 := direct_call (lit "second prompt") 4000 (2 # 10) in
  option_map (fun s => (length (tasks s), running s, in_flight s, processing s))
             (steps (init 30000 0) [Submit c1; Submit c2; Start 0%nat; Start 1%nat])
  = Some (2%nat, 2%nat, 2%nat, true).
Proof. vm_compute. reflexivity. Qed.

(** C8 on the same two callers, both requests well within a full bucket of
    30000 tokens: the network call of the second request ends first and
    its future (1) is resolved before the future (0) of the request that was
    enqueued first. *)
Theorem resolution_not_fifo :
  let c1 := direct_call (lit "first prompt") 4000 (2 # 10) in
  let c2 := direct_call (lit "second prompt") 4000 (2 # 10) in
  let s1 := steps (init 30000 0) [Submit c1; Submit c2] in
  let s2 := steps (init 30000 0)
                  [Submit c1; Submit c2; Start 0%nat; Start 1%nat;
                   Tick 2; Complete 1%nat (Ok (lit "b"));
                   Tick 3; Complete 0%nat (Ok (lit "a"))] in
  option_map (fun s => map future (queue s)) s1 = Some [0%nat; 1%nat]
  /\ option_map (fun s => map estimated_tokens (queue s)) s1 = Some [4004%Z; 4004%Z]
  /\ option_map (fun s => resolution_order (trace s)) s2 = Some [1%nat; 0%nat]
  /\ option_map (fun s => trace s) s2
     = Some [Consumed 0 4004 true; ApiCall 0; Consumed 1 4004 true; ApiCall 1;
             Resolved 1 (Ok (lit "b")); Resolved 0 (Ok (lit "a"))].
Proof. vm_compute. repeat split. Qed.

(** C10 on a queue built with 3000 tokens a minute and a short prompt
    asking for the default 4000 output tokens.  The estimate, 4004, is under
    the ceiling, so the request takes the direct path.  The drain loop
    computes a wait of 20.08 seconds, sleeps exactly that long, pops the
    request, and [consume(4004)] fails: the balance stays at the capacity,
    3000, and the network call begins all the same. *)
Theorem consume_fails_after_wait :
  let p := lit "summarise this" in
  let c := direct_call p 4000 (2 # 10) in
  let s1 := steps (init 3000 0) [Submit c; Start 0%nat] in
  let s2 := steps (init 3000 0)
                  [Submit c; Start 0%nat; Tick (2008 # 100); Wake 0%nat] in
  fst (run (add_request default_max_chunk_size p 4000 (2 # 10))
           (fun _ => Ok (lit "r")) 0 []) = [c]
  /\ call_estimated_tokens c = 4004%Z
  /\ option_map (fun s => match nth_error (tasks s) 0 with
                          | Some (Sleeping r wake) => Qeq_bool wake (2008 # 100)
                          | _ => false
                          end) s1 = Some true
  /\ option_map (fun s => trace s) s2
     = Some [Consumed 0 4004 false; ApiCall 0]
  /\ option_map (fun s => Qeq_bool (TokenBucket.tokens (token_bucket s)) 3000) s2
     = Some true
  /\ option_map in_flight s2 = Some 1%nat.
Proof. vm_compute. repeat split. Qed.

End DrainFacts.

(* ------------------------------------------------------------------------- *)
(** * Further properties of the token bucket *)

Module TokenBucketLimits.
Import TokenBucket TokenBucketFacts.
Open Scope Q_scope.











End TokenBucketLimits.

(* ------------------------------------------------------------------------- *)
(** * Further properties of the splitter *)

Module SplitterEdges.
Import Str Splitter StrFacts SplitterFacts.
Open Scope Z_scope.

Lemma is_prefix_chars sep : forall s c,
  is_prefix sep s = true -> In c sep -> In c s.
Proof.
  induction sep as [|a sep IH]; intros s c H Hc; [destruct Hc|].
  destruct s as [|b s]; [discriminate|]. simpl in H.
  apply andb_prop in H as [Hab Hp]. apply Ascii.eqb_eq in Hab. subst b.
  destruct Hc as [<-|Hc]; [left; reflexivity|right; exact (IH s c Hp Hc)].
Qed.

(** A separator one of whose characters is missing from the text does not
    occur in it. *)
Lemma occurs_missing_char sep c : forall s,
  In c sep -> ~ In c s -> occurs sep s = false.
Proof.
  intros s Hc. induction s as [|a s IH]; intros Hs.
  - simpl. rewrite orb_false_r.
    destruct (is_prefix sep []) eqn:E; [|reflexivity].
    exfalso. exact (Hs (is_prefix_chars sep [] c E Hc)).
  - simpl occurs. rewrite IH by (intros H; apply Hs; right; exact H).
    rewrite orb_false_r.
    destruct (is_prefix sep (a :: s)) eqn:E; [|reflexivity].
    exfalso. exact (Hs (is_prefix_chars sep (a :: s) c E Hc)).
Qed.

(** Splitting on a separator that does not occur gives the text itself. *)
Lemma split_absent sep : forall s, occurs sep s = false -> split sep s = [s].
Proof.
  unfold split. induction s as [|c s IH]; intros H; [reflexivity|].
  simpl in H. apply orb_false_elim in H as [Hp Ho].
  simpl split_go. rewrite Hp, (IH Ho). reflexivity.
Qed.

(** Replacing a text that does not occur changes nothing. *)
Lemma replace_absent old new : forall s,
  occurs old s = false -> replace old new s = s.
Proof.
  unfold replace. induction s as [|c s IH]; intros H; [reflexivity|].
  simpl in H. apply orb_false_elim in H as [Hp Ho].
  simpl replace_go. rewrite Hp, (IH Ho). reflexivity.
Qed.

Lemma fold_left_last (P : acc -> Prop) (f : acc -> str -> acc) :
  (forall st x, P (f st x)) ->
  forall l st, l <> [] -> P (fold_left f l st).
Proof.
  intros Hf. induction l as [|x l IH]; intros st Hl; [contradiction|].
  simpl. destruct l as [|y l]; [apply Hf|]. apply IH. discriminate.
Qed.

Lemma word_step_open m st w : snd (word_step m st w) <> [].
Proof.
  destruct st as [chunks cur]. unfold word_step.
  destruct (len cur + len w + 1 >? m); simpl; intros H;
    repeat (apply app_eq_nil in H as [_ H]); discriminate.
Qed.

Lemma sentence_step_open m st s : snd (sentence_step m st s) <> [].
Proof.
  unfold sentence_step.
  destruct (len (snd st) + len s >? m); [destruct (len s >? m)|].
  - apply (fold_left_last (fun st => snd st <> [])).
    + apply word_step_open.
    + apply split_go_nonempty.
  - simpl. intros H. apply app_eq_nil in H as [_ H]. discriminate.
  - simpl. intros H. repeat (apply app_eq_nil in H as [_ H]). discriminate.
Qed.

Lemma paragraph_step_open m st p : snd (paragraph_step m st p) <> [].
Proof.
  unfold paragraph_step.
  destruct (len (snd st) + len p >? m); [destruct (len p >? m)|].
  - apply (fold_left_last (fun st => snd st <> [])).
    + apply sentence_step_open.
    + apply split_go_nonempty.
  - simpl. intros H. apply app_eq_nil in H as [_ H]. discriminate.
  - simpl. intros H. repeat (apply app_eq_nil in H as [_ H]). discriminate.
Qed.

Lemma split_text_some_chunk (text : str) (max_tokens : Z) :
  _split_text text max_tokens <> [].
Proof.
  unfold _split_text. destruct (len text <=? max_tokens * 4); [discriminate|].
  set (st := fold_left (paragraph_step (max_tokens * 4)) (split [nl; nl] text) ([], [])).
  assert (Hopen : snd st <> []).
  { apply (fold_left_last (fun st => snd st <> [])).
    - apply paragraph_step_open.
    - apply split_go_nonempty. }
  destruct st as [chunks cur]. unfold flush. simpl in *.
  destruct cur as [|c cur]; [contradiction|]. simpl.
  intros H. apply app_eq_nil in H as [_ H]. discriminate.
Qed.

(** X6.  [_split_text] always returns at least one chunk, whatever the text and
    the budget (zero and negative budgets included). *)
Theorem split_text_nonempty (text : str) (max_tokens : Z) :
  _split_text text max_tokens <> [].
Proof. apply split_text_some_chunk. Qed.

(** With nothing in the open chunk, a paragraph over the budget goes to the
    sentence loop and a sentence over the budget to the word loop. *)
Lemma paragraph_step_long m chunks p :
  m < len p ->
  paragraph_step m (chunks, []) p
  = fold_left (sentence_step m) (sentences_of p) (chunks, []).
Proof.
  intros H. unfold paragraph_step. cbn [snd fst]. change (len []) with 0.
  destruct (0 + len p >? m) eqn:E1; ztest; [|lia].
  destruct (len p >? m) eqn:E2; ztest; [reflexivity|lia].
Qed.

Lemma sentence_step_long m chunks s :
  m < len s ->
  sentence_step m (chunks, []) s
  = fold_left (word_step m) (split [sp] s) (chunks, []).
Proof.
  intros H. unfold sentence_step. cbn [snd fst]. change (len []) with 0.
  destruct (0 + len s >? m) eqn:E1; ztest; [|lia].
  destruct (len s >? m) eqn:E2; ztest; [reflexivity|lia].
Qed.

Lemma word_step_first m chunks w :
  m < len w + 1 ->
  word_step m (chunks, []) w = (chunks ++ [[]], w ++ [sp]).
Proof.
  intros H. unfold word_step.
  destruct (len [] + len w + 1 >? m) eqn:E; ztest; [reflexivity|].
  change (len []) with 0 in E. lia.
Qed.

(** X7.  A text that is one word longer than the budget (no space, no newline)
    comes back as two chunks: an empty one, appended by the word loop before
    the word, and the word followed by a space. *)
Theorem split_text_long_word (word : str) (max_tokens : Z) :
  ~ In sp word -> ~ In nl word -> max_tokens * 4 < len word ->
  _split_text word max_tokens = [[]; word ++ [sp]].
Proof.
  intros Hsp Hnl Hlen. unfold _split_text.
  destruct (len word <=? max_tokens * 4) eqn:E; ztest; [lia|].
  assert (Hpar : split [nl; nl] word = [word]).
  { apply split_absent. apply (occurs_missing_char _ nl); [left; reflexivity|exact Hnl]. }
  assert (Hsen : sentences_of word = [word]).
  { unfold sentences_of. rewrite replace_absent.
    - apply split_absent. apply (occurs_missing_char _ nl); [left; reflexivity|exact Hnl].
    - apply (occurs_missing_char _ sp); [right; left; reflexivity|exact Hsp]. }
  assert (Hwor : split [sp] word = [word]).
  { apply split_absent. apply (occurs_missing_char _ sp); [left; reflexivity|exact Hsp]. }
  rewrite Hpar. cbn [fold_left].
  rewrite paragraph_step_long by exact Hlen.
  rewrite Hsen. cbn [fold_left].
  rewrite sentence_step_long by exact Hlen.
  rewrite Hwor. cbn [fold_left].
  rewrite word_step_first by lia.
  unfold flush. cbn [snd fst app].
  destruct (word ++ [sp]) as [|c rest] eqn:Ew.
  - apply app_eq_nil in Ew as [_ Ew]. discriminate.
  - reflexivity.
Qed.

Lemma split_text_long_word_witness :
  _split_text (lit "incomprehensibilities") 2
  = [[]; lit "incomprehensibilities" ++ [sp]].
Proof.
  apply (split_text_long_word (lit "incomprehensibilities") 2).
  - vm_compute. intuition discriminate.
  - vm_compute. intuition discriminate.
  - vm_compute. reflexivity.
Defined.

(** X8.  A text over the budget that has no newline and no period followed by a
    space is cut between words only: the chunks concatenate to the text and
    one trailing space. *)
Theorem split_text_words_roundtrip (text : str) (max_tokens : Z) :
  ~ In nl text -> occurs (lit ". ") text = false ->
  max_tokens * 4 < len text ->
  concat (_split_text text max_tokens) = text ++ [sp].
Proof.
  intros Hnl Hdot Hlen.
  rewrite split_text_pieces by exact Hlen.
  unfold pieces.
  rewrite split_absent
    by (apply (occurs_missing_char _ nl); [left; reflexivity|exact Hnl]).
  simpl. rewrite app_nil_r. unfold paragraph_pieces.
  destruct (len text >? max_tokens * 4) eqn:E; ztest; [|lia].
  unfold sentences_of. rewrite replace_absent by exact Hdot.
  rewrite split_absent
    by (apply (occurs_missing_char _ nl); [left; reflexivity|exact Hnl]).
  simpl. rewrite app_nil_r. unfold sentence_pieces.
  destruct (len text >? max_tokens * 4) eqn:E2; ztest; [|lia].
  unfold word_pieces.
  rewrite concat_sep by apply split_go_nonempty.
  rewrite join_split by discriminate. reflexivity.
Qed.

Lemma split_text_words_roundtrip_witness :
  concat (_split_text (lit "one two three four five") 2)
  = lit "one two three four five" ++ [sp].
Proof.
  apply (split_text_words_roundtrip (lit "one two three four five") 2).
  - vm_compute. intuition discriminate.
  - reflexivity.
  - vm_compute. reflexivity.
Defined.

End SplitterEdges.

(* ------------------------------------------------------------------------- *)
(** * Further properties of the coordinator *)

Module CoordinatorRuns.
Import Str Splitter Coordinator StrFacts SplitterFacts SplitterEdges CoordinatorFacts.
Open Scope Z_scope.

Lemma is_prefix_app_r sep : forall x y,
  is_prefix sep x = true -> is_prefix sep (x ++ y) = true.
Proof.
  induction sep as [|a sep IH]; intros x y H; [reflexivity|].
  destruct x as [|b x]; [discriminate|]. simpl in *.
  apply andb_prop in H as [Hab Hp]. rewrite Hab, (IH x y Hp). reflexivity.
Qed.

(** [split(sep, 1)] cuts at the first occurrence of the separator. *)
Lemma split1_some sep : sep <> [] -> forall s before after,
  split1 sep s = Some (before, after) ->
  s = before ++ sep ++ after /\ occurs sep before = false.
Proof.
  intros Hsep. induction s as [|c s IH]; intros before after H.
  - simpl in H. destruct (is_prefix sep []) eqn:E; [|discriminate].
    destruct sep; [contradiction|discriminate].
  - simpl in H. destruct (is_prefix sep (c :: s)) eqn:E.
    + injection H as <- <-. split.
      * simpl. apply is_prefix_app. exact E.
      * simpl. destruct sep; [contradiction|reflexivity].
    + destruct (split1 sep s) as [[b a]|] eqn:Es; [|discriminate].
      injection H as <- <-. destruct (IH b a eq_refl) as [Hs Ho]. split.
      * simpl. f_equal. exact Hs.
      * simpl. rewrite Ho, orb_false_r.
        destruct (is_prefix sep (c :: b)) eqn:Eb; [|reflexivity].
        pose proof (is_prefix_app_r sep (c :: b) (sep ++ a) Eb) as Hp.
        simpl app in Hp. rewrite <- Hs in Hp. congruence.
Qed.

Lemma split1_none sep : forall s, split1 sep s = None <-> occurs sep s = false.
Proof.
  induction s as [|c s IH]; simpl.
  - destruct (is_prefix sep []); simpl; split; congruence.
  - destruct (is_prefix sep (c :: s)); simpl; [split; congruence|].
    rewrite <- IH. destruct (split1 sep s) as [[b a]|]; split; congruence.
Qed.

(** X9.  A prompt without the marker ["Human:"] is split whole, with an empty
    preamble.  Otherwise the prompt is cut at the first marker: the user part
    starts with the marker, the part before it holds no marker and, stripped
    of surrounding white space, is the preamble. *)
Theorem split_prompt_marker (prompt : str) :
  (occurs (lit "Human:") prompt = false -> split_prompt prompt = ([], prompt))
  /\ (occurs (lit "Human:") prompt = true ->
      exists before after,
        prompt = before ++ lit "Human:" ++ after
        /\ occurs (lit "Human:") before = false
        /\ split_prompt prompt = (strip before, lit "Human:" ++ after)).
Proof.
  unfold split_prompt. split; intros H.
  - apply split1_none in H. rewrite H. reflexivity.
  - destruct (split1 (lit "Human:") prompt) as [[b a]|] eqn:E.
    + exists b, a. destruct (split1_some (lit "Human:") ltac:(discriminate) _ _ _ E).
      auto.
    + apply split1_none in E. congruence.
Qed.

Lemma split_prompt_marker_witness :
  split_prompt (lit "be brief") = ([], lit "be brief")
  /\ exists before after,
       lit "Be brief. Human: hello" = before ++ lit "Human:" ++ after
       /\ occurs (lit "Human:") before = false
       /\ split_prompt (lit "Be brief. Human: hello")
          = (strip before, lit "Human:" ++ after).
Proof.
  split.
  - apply (proj1 (split_prompt_marker (lit "be brief"))). reflexivity.
  - apply (proj2 (split_prompt_marker (lit "Be brief. Human: hello"))). reflexivity.
Defined.

Lemma length_chunk_calls sp m t total : forall chunks i,
  length (chunk_calls sp m t total i chunks) = length chunks.
Proof.
  induction chunks as [|c rest IH]; intros i; simpl; [reflexivity|].
  rewrite IH. reflexivity.
Qed.

(** Whatever the futures resolve with, the chunk loop enqueues a prefix of
    the chunk requests, in chunk order, and at least the first one. *)
Lemma run_chunk_loop_prefix sp m t total futures : forall chunks i results n enq,
  exists k, (k <= length chunks)%nat
            /\ (chunks <> [] -> 1 <= k)%nat
            /\ fst (run (chunk_loop sp m t total i chunks results) futures n enq)
               = enq ++ firstn k (chunk_calls sp m t total i chunks).
Proof.
  induction chunks as [|chunk rest IH]; intros i results n enq.
  - exists 0%nat. simpl. rewrite app_nil_r. repeat split; [lia|congruence].
  - cbn [chunk_loop run chunk_calls].
    destruct (futures n) as [r|e]; cbn [await_result].
    + set (c := mkcall (chunk_prompt sp i total chunk) m t
                       (estimate_tokens (chunk_prompt sp i total chunk) + m)).
      destruct (IH (S i) (results ++ [r]) (S n) (enq ++ [c])) as [k [Hk [_ Hrun]]].
      exists (S k). split; [simpl; lia|]. split; [lia|].
      destruct (Z.of_nat i <? Z.of_nat total - 1); cbn [run];
        rewrite Hrun, <- app_assoc; reflexivity.
    + exists 1%nat. split; [simpl; lia|]. split; [lia|]. reflexivity.
Qed.

(** X10.  A chunked submission always enqueues at least one request, at most one
    per chunk, and the requests it enqueues are the first chunk requests in
    chunk order. *)
Theorem process_large_request_prefix
        (max_chunk_size : Z) (prompt : str) (m : Z) (t : Q)
        (futures : nat -> outcome) :
  let chunks := chunks_of max_chunk_size prompt m in
  let calls := chunk_calls (fst (split_prompt prompt)) m t (length chunks) 0 chunks in
  exists k, (1 <= k <= length chunks)%nat
            /\ fst (run (_process_large_request max_chunk_size prompt m t) futures 0 [])
               = firstn k calls.
Proof.
  intros chunks calls. unfold _process_large_request. fold chunks.
  destruct (run_chunk_loop_prefix (fst (split_prompt prompt)) m t (length chunks)
              futures chunks 0%nat [] 0%nat []) as [k [Hk [H1 Hrun]]].
  exists k. split; [|exact Hrun]. split; [|exact Hk].
  apply H1. unfold chunks, chunks_of.
  destruct (split_prompt prompt). apply split_text_some_chunk.
Qed.

(** X11.  When every chunk future resolves with a value, one request per chunk is
    enqueued and the values are returned joined by blank lines, in chunk
    order. *)
Theorem process_large_request_all_ok
        (max_chunk_size : Z) (prompt : str) (m : Z) (t : Q)
        (futures : nat -> outcome) (rs : nat -> str) :
  let chunks := chunks_of max_chunk_size prompt m in
  let calls := chunk_calls (fst (split_prompt prompt)) m t (length chunks) 0 chunks in
  (forall j, (j < length chunks)%nat -> futures j = Ok (rs j)) ->
  run (_process_large_request max_chunk_size prompt m t) futures 0 []
  = (calls, Ok (join [nl; nl] (map rs (seq 0 (length chunks)))))
  /\ length calls = length chunks.
Proof.
  intros chunks calls Hok. split; [|apply length_chunk_calls].
  unfold _process_large_request. fold chunks.
  rewrite (run_chunk_loop_ok (fst (split_prompt prompt)) m t (length chunks)
             futures rs chunks 0 [] 0 []).
  - reflexivity.
  - intros j Hj. apply Hok. exact Hj.
Qed.

Lemma process_large_request_all_ok_witness :
  let prompt := lit "aaaa" ++ [nl; nl] ++ lit "bbbb" ++ [nl; nl] ++ lit "cccc" in
  let rs := fun j => of_nat j in
  run (_process_large_request 3 prompt 0 (2 # 10)) (fun j => Ok (rs j)) 0 []
  = (chunk_calls (fst (split_prompt prompt)) 0 (2 # 10)
       (length (chunks_of 3 prompt 0)) 0 (chunks_of 3 prompt 0),
     Ok (join [nl; nl] (map rs (seq 0 (length (chunks_of 3 prompt 0))))))
  /\ length (chunk_calls (fst (split_prompt prompt)) 0 (2 # 10)
       (length (chunks_of 3 prompt 0)) 0 (chunks_of 3 prompt 0))
     = length (chunks_of 3 prompt 0).
Proof.
  intros prompt rs.
  apply (process_large_request_all_ok 3 prompt 0 (2 # 10) (fun j => Ok (rs j)) rs).
  intros j Hj. reflexivity.
Defined.

(** X12.  How far a chunk request can be above the ceiling.  When the budget left
    for the chunks is not negative, a chunk that is not a lone over-long
    word gives a request whose estimate exceeds [max_chunk_size] by at most
    a quarter of what is injected in front of it beyond the preamble (the
    blank lines and the part annotation), plus six characters. *)
Theorem chunk_request_estimate
        (max_chunk_size : Z) (prompt : str) (m : Z) (i total : nat) (chunk : str) :
  let system_prompt := fst (split_prompt prompt) in
  let chunk_size := max_chunk_size - estimate_tokens system_prompt - m in
  0 <= chunk_size ->
  In chunk (chunks_of max_chunk_size prompt m) ->
  ~ lone_long_word (chunk_size * 4) chunk ->
  estimate_tokens (chunk_prompt system_prompt i total chunk) + m
  <= max_chunk_size
     + (len (injected system_prompt i total) - len system_prompt + 6) / 4.
Proof.
  intros system_prompt chunk_size Hcs Hin Hlone.
  assert (Hlen : len chunk <= chunk_size * 4 + 2).
  { unfold chunks_of in Hin. fold system_prompt in Hin.
    destruct (split_prompt prompt) as [sp0 up] eqn:E. simpl in system_prompt.
    pose proof (split_text_chunks_ok up chunk_size Hcs) as Hall.
    rewrite Forall_forall in Hall.
    destruct (Hall chunk Hin) as [H|H]; [exact H|contradiction]. }
  destruct (chunk_prompt_strip system_prompt i total chunk) as [-> _].
  unfold estimate_tokens in *. rewrite len_app.
  pose proof (len_nonneg system_prompt) as HS.
  pose proof (len_nonneg (injected system_prompt i total)) as HI.
  unfold chunk_size in Hlen.
  Z.div_mod_to_equations. lia.
Qed.

Lemma chunk_request_estimate_witness :
  let prompt := lit "aaaa" ++ [nl; nl] ++ lit "bbbb" ++ [nl; nl] ++ lit "cccc" in
  let system_prompt := fst (split_prompt prompt) in
  estimate_tokens (chunk_prompt system_prompt 0 3 (lit "aaaa" ++ [nl; nl])) + 0
  <= 3 + (len (injected system_prompt 0 3) - len system_prompt + 6) / 4.
Proof.
  intros prompt system_prompt.
  apply (chunk_request_estimate 3 prompt 0 0 3 (lit "aaaa" ++ [nl; nl])).
  - vm_compute. discriminate.
  - vm_compute. left. reflexivity.
  - intros [w [Hw [Hl _]]].
    assert (H6 : len (lit "aaaa" ++ [nl; nl]) = 6) by reflexivity.
    rewrite Hw, len_app in H6. change (len [sp]) with 1 in H6.
    assert (H8 : 8 < len w) by exact Hl.
    lia.
Defined.

End CoordinatorRuns.

(* ------------------------------------------------------------------------- *)
(** * Further properties of the drain loops *)

Module DrainRuns.
Import Str Splitter Coordinator Drain TokenBucketFacts DrainFacts.
Open Scope Q_scope.

(** X17.  Callers that enqueue one after the other on an idle queue, before any
    drain task has started, create one drain task each; the flag stays
    clear and the requests sit in the queue in call order. *)
Theorem burst_spawns (cs : list call) : forall s,
  processing s = false ->
  exists s', steps s (map Submit cs) = Some s'
             /\ processing s' = false
             /\ tasks s' = tasks s ++ repeat Created (length cs)
             /\ map (fun r => (prompt r, estimated_tokens r)) (queue s')
                = map (fun r => (prompt r, estimated_tokens r)) (queue s)
                  ++ map (fun c => (call_prompt c, call_estimated_tokens c)) cs.
Proof.
  induction cs as [|c cs IH]; intros s Hflag.
  - exists s. simpl. rewrite !app_nil_r. auto.
  - simpl map. cbn [steps step].
    destruct (IH (enqueue s c)) as [s' [Hs [Hf [Ht Hq]]]]; [exact Hflag|].
    exists s'. split; [exact Hs|]. split; [exact Hf|]. split.
    + rewrite Ht, (enqueue_spawn s c Hflag), <- app_assoc. reflexivity.
    + rewrite Hq. unfold enqueue at 1. cbn [queue]. rewrite map_app, <- app_assoc.
      reflexivity.
Qed.

Lemma burst_spawns_witness :
  exists s', steps (init 30000 0)
                   (map Submit [direct_call (lit "a") 1 0; direct_call (lit "b") 2 0])
             = Some s'
             /\ processing s' = false
             /\ tasks s' = tasks (init 30000 0) ++ repeat Created 2
             /\ map (fun r => (prompt r, estimated_tokens r)) (queue s')
                = map (fun r => (prompt r, estimated_tokens r)) (queue (init 30000 0))
                  ++ map (fun c => (call_prompt c, call_estimated_tokens c))
                         [direct_call (lit "a") 1 0; direct_call (lit "b") 2 0].
Proof.
  apply (burst_spawns [direct_call (lit "a") 1 0; direct_call (lit "b") 2 0]
                      (init 30000 0)).
  reflexivity.
Defined.

(** X18.  Once the flag is set and no drain task is left, nothing is ever served
    again: whatever happens next, the flag stays set, no future is resolved
    and no call is made, and every later request stays in the queue. *)
Theorem dead_forever (es : list event) : forall s s',
  dead s -> steps s es = Some s' ->
  dead s' /\ trace s' = trace s
  /\ exists later, queue s' = queue s ++ later.
Proof.
  induction es as [|e es IH]; intros s s' Hdead Hsteps; simpl in Hsteps.
  - injection Hsteps as <-. split; [exact Hdead|]. split; [reflexivity|].
    exists []. rewrite app_nil_r. reflexivity.
  - destruct Hdead as [Hflag Hin].
    assert (Hno : forall j, match nth_error (tasks s) j with
                            | Some d => inactive d = true
                            | None => True
                            end).
    { intros j. destruct (nth_error (tasks s) j) eqn:E; [exact (Hin j d E)|exact I]. }
    destruct e as [c|dt|j|j|j o]; simpl in Hsteps.
    + assert (Hd : dead (enqueue s c)).
      { split; [exact Hflag|]. rewrite (enqueue_no_spawn s c Hflag). exact Hin. }
      destruct (IH _ _ Hd Hsteps) as [Hd' [Ht [later Hq]]].
      split; [exact Hd'|]. split; [exact Ht|].
      eexists. rewrite Hq. unfold enqueue at 1. cbn [queue].
      rewrite <- app_assoc. reflexivity.
    + destruct (Qle_bool 0 dt); [|discriminate].
      assert (Hd : dead (set_clock s (clock s + dt))) by (split; assumption).
      exact (IH _ _ Hd Hsteps).
    + specialize (Hno j).
      destruct (nth_error (tasks s) j) as [[| | | |]|]; discriminate.
    + specialize (Hno j).
      destruct (nth_error (tasks s) j) as [[| | | |]|]; discriminate.
    + specialize (Hno j).
      destruct (nth_error (tasks s) j) as [[| | | |]|]; discriminate.
Qed.

Lemma loop_head_zero_rate s i r rest :
  queue s = r :: rest ->
  fst (TokenBucket.get_wait_time (token_bucket s) (clock s)
         (inject_Z (estimated_tokens r))) = None ->
  loop_head s i
  = set_task (set_bucket s (TokenBucket.refill (token_bucket s) (clock s))) i
             (Crashed ZeroDivisionError).
Proof.
  intros Hq Hw. unfold loop_head. rewrite Hq.
  pose proof (get_wait_time_bucket (token_bucket s) (clock s)
                (inject_Z (estimated_tokens r))) as Hb.
  destruct (TokenBucket.get_wait_time _ _ _) as [w b]. simpl in Hw, Hb.
  subst w b. reflexivity.
Qed.

(** X19.  A queue built with a budget of zero tokens a minute: the first drain task
    divides by the zero refill rate and dies with the flag set, whatever the
    request (its estimate is positive); the queue is dead from then on. *)
Theorem zero_budget_dead (c : call) (t0 : Q) :
  (0 < call_estimated_tokens c)%Z ->
  exists s, steps (init 0 t0) [Submit c; Start 0%nat] = Some s
            /\ tasks s = [Crashed ZeroDivisionError]
            /\ trace s = []
            /\ length (queue s) = 1%nat
            /\ dead s.
Proof.
  intros Hpos.
  set (s1 := set_processing (enqueue (init 0 t0) c) true).
  assert (Hstep : steps (init 0 t0) [Submit c; Start 0%nat] = Some (loop_head s1 0))
    by reflexivity.
  rewrite Hstep.
  assert (Hw : fst (TokenBucket.get_wait_time (token_bucket s1) (clock s1)
                      (inject_Z (call_estimated_tokens c))) = None).
  { unfold TokenBucket.get_wait_time.
    set (b1 := TokenBucket.refill _ _).
    assert (Ht : TokenBucket.tokens b1 == 0).
    { unfold b1. rewrite refill_tokens. simpl.
      unfold inject_Z. rewrite Q.min_l; [reflexivity|]. ring_simplify. apply Qle_refl. }
    destruct (Qle_bool _ (TokenBucket.tokens b1)) eqn:E.
    - apply Qle_bool_iff in E. rewrite Ht in E.
      unfold Qle, inject_Z in E. simpl in E. lia.
    - reflexivity. }
  rewrite (loop_head_zero_rate s1 0 _ [] eq_refl Hw).
  eexists. split; [reflexivity|].
  repeat split.
  intros [|[|j]] d Hd; simpl in Hd; try discriminate.
  injection Hd as <-. reflexivity.
Qed.

Lemma zero_budget_dead_witness :
  exists s, steps (init 0 0) [Submit (direct_call (lit "hello") 100 (2 # 10)); Start 0%nat]
            = Some s
            /\ tasks s = [Crashed ZeroDivisionError]
            /\ trace s = []
            /\ length (queue s) = 1%nat
            /\ dead s.
Proof.
  apply (zero_budget_dead (direct_call (lit "hello") 100 (2 # 10)) 0).
  vm_compute. reflexivity.
Defined.

(** X16.  One failing request does not stop the queue.  In a system where task [i]
    is the only drain loop and is in the call of [r], with [r'] waiting at
    the head of the queue and a refill rate that is not zero: when the call
    raises [e], the future of [r] is resolved with [e] and with nothing
    else, and the same loop goes on to [r'], sleeping for it or calling it. *)
Theorem failure_isolated s i r r' rest e :
  one_loop s i ->
  nth_error (tasks s) i = Some (Calling r) ->
  queue s = r' :: rest ->
  Qeq_bool (TokenBucket.refill_rate (token_bucket s)) 0 = false ->
  exists s',
    step s (Complete i (Exn e)) = Some s'
    /\ one_loop s' i
    /\ (exists later, trace s' = trace s ++ Resolved (future r) (Exn e) :: later
                      /\ resolution_order later = [])
    /\ ((exists wake, nth_error (tasks s') i = Some (Sleeping r' wake))
        \/ nth_error (tasks s') i = Some (Calling r')).
Proof.
  intros Hone Ei Hq Hrate.
  pose proof (nth_error_lt _ _ _ Ei) as Hlen.
  assert (Hfresh : is_done (trace s) (future r) = false).
  { destruct (is_done (trace s) (future r)) eqn:E; [|reflexivity].
    apply is_done_spec in E. pose proof (ol_nodup s i Hone) as Hnd.
    unfold fifo_order, held in Hnd. rewrite Ei in Hnd.
    apply NoDup_remove_2 in Hnd. exfalso. apply Hnd. apply in_or_app. left. exact E. }
  assert (Hstep : step s (Complete i (Exn e))
                  = Some (loop_head (log s [Resolved (future r) (Exn e)]) i)).
  { simpl. rewrite Ei. unfold resolve. rewrite Hfresh. reflexivity. }
  eexists. split; [exact Hstep|].
  destruct (single_loop_fifo s i _ _ Hone Hstep) as [_ Hcases].
  assert (Hnext :
    (exists later, trace (loop_head (log s [Resolved (future r) (Exn e)]) i)
                   = trace s ++ Resolved (future r) (Exn e) :: later
                   /\ resolution_order later = [])
    /\ ((exists wake, nth_error (tasks (loop_head (log s [Resolved (future r) (Exn e)]) i)) i
                      = Some (Sleeping r' wake))
        \/ nth_error (tasks (loop_head (log s [Resolved (future r) (Exn e)]) i)) i
           = Some (Calling r'))).
  { unfold loop_head. cbn [queue log]. rewrite Hq. cbn [token_bucket clock log].
    unfold TokenBucket.get_wait_time.
    change (TokenBucket.refill_rate
              (TokenBucket.refill (token_bucket s) (clock s)))
      with (TokenBucket.refill_rate (token_bucket s)).
    rewrite Hrate.
    destruct (Qle_bool (inject_Z (estimated_tokens r'))
                (TokenBucket.tokens (TokenBucket.refill (token_bucket s) (clock s)))).
    - change (Qle_bool 0 0) with true. cbv iota.
      destruct (process_pop
                  (set_bucket (log s [Resolved (future r) (Exn e)])
                     (TokenBucket.refill (token_bucket s) (clock s))) i r' rest
                  Hlen Hq) as [ok [b' ->]].
      split.
      + eexists. split; [simpl; rewrite <- app_assoc; reflexivity|reflexivity].
      + right. simpl. apply nth_error_update_eq. exact Hlen.
    - match goal with
      | |- context [Qle_bool ?w 0] => destruct (Qle_bool w 0)
      end.
      + destruct (process_pop
                    (set_bucket (log s [Resolved (future r) (Exn e)])
                       (TokenBucket.refill (token_bucket s) (clock s))) i r' rest
                    Hlen Hq) as [ok [b' ->]].
        split.
        * eexists. split; [simpl; rewrite <- app_assoc; reflexivity|reflexivity].
        * right. simpl. apply nth_error_update_eq. exact Hlen.
      + split.
        * exists []. split; [reflexivity|reflexivity].
        * left. eexists. simpl. apply nth_error_update_eq. exact Hlen. }
  destruct Hnext as [Htr Htask]. split; [|split; assumption].
  destruct Hcases as [H1|[[Hfin _]|Hcr]]; [exact H1| |].
  - destruct Htask as [[wake Hw]|Hc]; congruence.
  - destruct Htask as [[wake Hw]|Hc]; congruence.
Qed.

(** X13.  First in, first out.  While a single drain loop serves the queue, the
    futures resolved so far are, in resolution order, an initial part of the
    order in which the requests were enqueued: the order at the start (resolved,
    in flight, waiting) followed by the requests enqueued since. *)
Theorem single_loop_keeps_order es s s' i :
  one_loop s i -> steps s es = Some s' -> alive s' i = true ->
  exists new pending,
    fifo_order s i ++ new = resolution_order (trace s') ++ pending.
Proof.
  intros Hone Hsteps Halive.
  destruct (single_loop_run es s s' i Hone Hsteps Halive) as [_ [new Hnew]].
  exists new, (held s' i ++ map future (queue s')).
  rewrite <- Hnew. reflexivity.
Qed.

(** X14.  While a single drain loop serves the queue, at most one network call is
    in flight. *)
Theorem single_loop_one_call es s s' i :
  one_loop s i -> steps s es = Some s' -> alive s' i = true ->
  (in_flight s' <= 1)%nat.
Proof.
  intros Hone Hsteps Halive.
  destruct (single_loop_run es s s' i Hone Hsteps Halive) as [H' _].
  exact (one_loop_in_flight s' i H').
Qed.

(** X15.  While a single drain loop serves the queue, no future is resolved twice,
    and the request whose call is in flight is no longer in the queue nor
    resolved. *)
Theorem single_loop_once es s s' i :
  one_loop s i -> steps s es = Some s' -> alive s' i = true ->
  NoDup (resolution_order (trace s'))
  /\ forall r, nth_error (tasks s') i = Some (Calling r) ->
               ~ In (future r) (map future (queue s'))
               /\ ~ In (future r) (resolution_order (trace s')).
Proof.
  intros Hone Hsteps Halive.
  destruct (single_loop_run es s s' i Hone Hsteps Halive) as [H' _].
  pose proof (ol_nodup s' i H') as Hnd. unfold fifo_order in Hnd. split.
  - exact (NoDup_app_remove_r _ _ Hnd).
  - intros r Hr. unfold held in Hnd. rewrite Hr in Hnd.
    pose proof (NoDup_remove_2 _ _ _ Hnd) as Hnot. split; intros H; apply Hnot;
      apply in_or_app; [right|left]; exact H.
Qed.

Lemma Forall_update (P : drain -> Prop) d : forall l i,
  P d -> Forall P l -> Forall P (update i d l).
Proof.
  induction l as [|x l IH]; intros i Hd Hl; [destruct i; constructor|].
  inversion Hl; subst. destruct i; simpl; constructor; auto.
Qed.

Lemma healthy_set_task C R s i d :
  healthy C R s -> drain_ok d -> healthy C R (set_task s i d).
Proof.
  intros [Hc Hr Hb Hq Ht] Hd. split; try assumption.
  simpl. apply Forall_update; assumption.
Qed.

Lemma healthy_finish C R s i : healthy C R s -> healthy C R (finish s i).
Proof.
  intros [Hc Hr Hb Hq Ht]. unfold finish. apply healthy_set_task; [|exact I].
  split; assumption.
Qed.

Lemma healthy_log C R s l : healthy C R s -> healthy C R (log s l).
Proof. intros [Hc Hr Hb Hq Ht]. split; assumption. Qed.

Lemma healthy_refill C R s :
  0 <= C -> 0 <= R -> healthy C R s ->
  healthy C R (set_bucket s (TokenBucket.refill (token_bucket s) (clock s))).
Proof.
  intros HC HR [Hc Hr Hb Hq Ht]. split; try assumption.
  pose proof (apply_bounded (world_of s) TokenBucket.Refill) as H.
  simpl in H. apply H; try exact I; try exact Hb.
  - unfold world_of. simpl. rewrite Hc. exact HC.
  - unfold world_of. simpl. rewrite Hr. exact HR.
Qed.

Lemma healthy_process C R s i r :
  0 <= C -> 0 <= R -> healthy C R s -> est_ok r -> healthy C R (process s i r).
Proof.
  intros HC HR Hh Hr0. unfold process.
  destruct (queue s) as [|r0 rest] eqn:Hq.
  - destruct (is_done (trace s) (future r)).
    + apply healthy_set_task; [exact Hh|exact I].
    + apply healthy_finish, healthy_log. exact Hh.
  - pose proof (apply_bounded (world_of s)
                  (TokenBucket.Consume (inject_Z (estimated_tokens r)))) as Hb.
    pose proof (apply_constants (world_of s)
                  (TokenBucket.Consume (inject_Z (estimated_tokens r)))) as [Ec Er].
    simpl in Hb, Ec, Er.
    destruct Hh as [Hc Hr Hbd Hqu Ht].
    destruct (TokenBucket.consume (token_bucket s) (clock s)
                (inject_Z (estimated_tokens r))) as [ok b].
    simpl in Hb, Ec, Er.
    apply healthy_set_task; [|exact Hr0].
    split; simpl.
    + rewrite Ec. exact Hc.
    + rewrite Er. exact Hr.
    + apply Hb; try assumption.
      * unfold world_of. simpl. rewrite Hc. exact HC.
      * unfold world_of. simpl. rewrite Hr. exact HR.
      * unfold est_ok in Hr0. unfold Qle, inject_Z. simpl. lia.
    + rewrite Hq in Hqu. inversion Hqu. assumption.
    + exact Ht.
Qed.

Lemma healthy_loop_head C R s i :
  0 <= C -> 0 <= R -> healthy C R s -> healthy C R (loop_head s i).
Proof.
  intros HC HR Hh. unfold loop_head.
  destruct (queue s) as [|r rest] eqn:Hq; [apply healthy_finish; exact Hh|].
  pose proof (get_wait_time_bucket (token_bucket s) (clock s)
                (inject_Z (estimated_tokens r))) as Hb.
  destruct (TokenBucket.get_wait_time _ _ _) as [w b]. simpl in Hb. subst b.
  pose proof (healthy_refill C R s HC HR Hh) as Hh1.
  assert (Hr0 : est_ok r).
  { pose proof (h_queue C R s Hh) as Hqu. rewrite Hq in Hqu. inversion Hqu. assumption. }
  destruct w as [wt|].
  - destruct (Qle_bool wt 0).
    + apply healthy_process; assumption.
    + apply healthy_set_task; assumption.
  - apply healthy_set_task; [assumption|exact I].
Qed.

(** One event of a system whose bucket is within its bounds and whose
    requests have non-negative estimates leaves such a system, with the same
    capacity and rate. *)
Lemma healthy_step C R s e s' :
  0 <= C -> 0 <= R -> healthy C R s -> event_ok e -> step s e = Some s' ->
  healthy C R s'.
Proof.
  intros HC HR Hh He Hstep.
  destruct e as [c|dt|j|j|j o]; simpl in Hstep.
  - injection Hstep as <-. destruct Hh as [Hc Hr Hb Hq Ht]. split; try assumption.
    + unfold enqueue. simpl. apply Forall_app. split; [exact Hq|].
      constructor; [exact He|constructor].
    + unfold enqueue. simpl. destruct (processing s); [exact Ht|].
      apply Forall_app. split; [exact Ht|]. constructor; [exact I|constructor].
  - destruct (Qle_bool 0 dt) eqn:E; [|discriminate]. injection Hstep as <-.
    apply Qle_bool_iff in E.
    destruct Hh as [Hc Hr Hb Hq Ht]. split; try assumption.
    pose proof (apply_bounded (world_of s) (TokenBucket.Advance dt)) as H.
    apply H; try assumption.
    + unfold world_of. simpl. rewrite Hc. exact HC.
    + unfold world_of. simpl. rewrite Hr. exact HR.
  - destruct (nth_error (tasks s) j) as [[| | | |]|]; try discriminate.
    injection Hstep as <-. unfold _process_queue.
    apply healthy_loop_head; try assumption.
    destruct Hh as [Hc Hr Hb Hq Ht]. split; assumption.
  - destruct (nth_error (tasks s) j) as [[|r w| | |]|] eqn:Ej; try discriminate.
    destruct (Qle_bool w (clock s)); [|discriminate]. injection Hstep as <-.
    apply healthy_process; try assumption.
    pose proof (h_tasks C R s Hh) as Ht. rewrite Forall_forall in Ht.
    exact (Ht _ (nth_error_In _ _ Ej)).
  - destruct (nth_error (tasks s) j) as [[| |r| |]|]; try discriminate.
    injection Hstep as <-. unfold resolve.
    destruct (is_done (trace s) (future r)).
    + apply healthy_set_task; [exact Hh|exact I].
    + apply healthy_loop_head; try assumption. apply healthy_log. exact Hh.
Qed.

(** X20.  In every state the queue can reach from its construction with a
    non-negative budget, by any interleaving of callers and drain tasks whose
    requests have non-negative estimates, the balance of the bucket is
    between zero and the capacity, and capacity and rate are those of the
    construction. *)
Theorem reachable_bucket_bounded (tokens_per_minute : Z) (t0 : Q) (es : list event) s :
  (0 <= tokens_per_minute)%Z -> Forall event_ok es ->
  steps (init tokens_per_minute t0) es = Some s ->
  0 <= TokenBucket.tokens (token_bucket s) <= inject_Z tokens_per_minute
  /\ TokenBucket.per_minute tokens_per_minute (token_bucket s).
Proof.
  intros Hpos Hall Hsteps.
  assert (HC : 0 <= inject_Z tokens_per_minute)
    by (unfold Qle, inject_Z; simpl; lia).
  assert (HR : 0 <= inject_Z tokens_per_minute / 60)
    by (apply Qle_shift_div_l; lra).
  assert (Hh : healthy (inject_Z tokens_per_minute) (inject_Z tokens_per_minute / 60) s).
  { revert Hsteps Hall.
    assert (H0 : healthy (inject_Z tokens_per_minute) (inject_Z tokens_per_minute / 60)
                         (init tokens_per_minute t0)).
    { split.
      - reflexivity.
      - reflexivity.
      - unfold TokenBucket.bounded, world_of. simpl. repeat split; lra.
      - constructor.
      - constructor. }
    revert H0. generalize (init tokens_per_minute t0) as s0.
    induction es as [|e es IH]; intros s0 H0 Hsteps Hall; simpl in Hsteps.
    - injection Hsteps as <-. exact H0.
    - destruct (step s0 e) as [s1|] eqn:E; [|discriminate].
      inversion Hall as [|e0 es0 He Hes]; subst.
      apply (IH s1); try assumption.
      exact (healthy_step _ _ s0 e s1 HC HR H0 He E). }
  destruct Hh as [Hc Hr [[Hb0 Hb1] _] _ _]. unfold world_of in *. simpl in *.
  rewrite Hc in Hb1. repeat split; assumption.
Qed.

Lemma single_loop_keeps_order_witness :
  exists new pending,
    fifo_order example_busy 0 ++ new
    = resolution_order (trace example_later) ++ pending.
Proof.
  apply (single_loop_keeps_order example_events example_busy example_later 0).
  - split.
    + reflexivity.
    + eexists. split; reflexivity.
    + intros [|[|j]] d Hj Hd; try discriminate. contradiction.
    + intros r w H. discriminate.
    + repeat constructor; simpl; intros [].
    + repeat constructor.
  - vm_compute. reflexivity.
  - reflexivity.
Defined.

Lemma single_loop_one_call_witness : (in_flight example_later <= 1)%nat.
Proof.
  apply (single_loop_one_call example_events example_busy example_later 0).
  - split.
    + reflexivity.
    + eexists. split; reflexivity.
    + intros [|[|j]] d Hj Hd; try discriminate. contradiction.
    + intros r w H. discriminate.
    + repeat constructor; simpl; intros [].
    + repeat constructor.
  - vm_compute. reflexivity.
  - reflexivity.
Defined.

Lemma single_loop_once_witness :
  NoDup (resolution_order (trace example_later))
  /\ forall r, nth_error (tasks example_later) 0 = Some (Calling r) ->
               ~ In (future r) (map future (queue example_later))
               /\ ~ In (future r) (resolution_order (trace example_later)).
Proof.
  apply (single_loop_once example_events example_busy example_later 0).
  - split.
    + reflexivity.
    + eexists. split; reflexivity.
    + intros [|[|j]] d Hj Hd; try discriminate. contradiction.
    + intros r w H. discriminate.
    + repeat constructor; simpl; intros [].
    + repeat constructor.
  - vm_compute. reflexivity.
  - reflexivity.
Defined.

Lemma failure_isolated_witness :
  exists s',
    step example_queued (Complete 0 (Exn RateLimitError)) = Some s'
    /\ one_loop s' 0
    /\ (exists later,
          trace s' = trace example_queued
                     ++ Resolved 0 (Exn RateLimitError) :: later
          /\ resolution_order later = [])
    /\ ((exists wake,
           nth_error (tasks s') 0
           = Some (Sleeping (mkreq (lit "second prompt") 4000 (2 # 10) 4004 1 0) wake))
        \/ nth_error (tasks s') 0
           = Some (Calling (mkreq (lit "second prompt") 4000 (2 # 10) 4004 1 0))).
Proof.
  apply (failure_isolated example_queued 0
           (mkreq (lit "first prompt") 4000 (2 # 10) 4004 0 0)
           (mkreq (lit "second prompt") 4000 (2 # 10) 4004 1 0) []
           RateLimitError).
  - split.
    + reflexivity.
    + eexists. split; reflexivity.
    + intros [|[|j]] d Hj Hd; try discriminate. contradiction.
    + intros r w H. discriminate.
    + repeat constructor; simpl; intuition discriminate.
    + repeat constructor.
  - reflexivity.
  - reflexivity.
  - reflexivity.
Defined.

Lemma dead_forever_witness :
  dead example_dead
  /\ exists s',
       steps example_dead [Submit (direct_call (lit "again") 100 (2 # 10)); Tick 60]
       = Some s'
       /\ dead s' /\ trace s' = trace example_dead
       /\ exists later, queue s' = queue example_dead ++ later.
Proof.
  assert (Hd : dead example_dead).
  { split; [reflexivity|].
    intros [|[|j]] d Hd; simpl in Hd; try discriminate.
    injection Hd as <-. reflexivity. }
  split; [exact Hd|].
  eexists. split; [vm_compute; reflexivity|].
  apply (dead_forever [Submit (direct_call (lit "again") 100 (2 # 10)); Tick 60]
                      example_dead _ Hd).
  vm_compute. reflexivity.
Defined.

Lemma reachable_bucket_bounded_witness :
  0 <= TokenBucket.tokens (token_bucket example_later) <= inject_Z 30000
  /\ TokenBucket.per_minute 30000 (token_bucket example_later).
Proof.
  apply (reachable_bucket_bounded 30000 0
           ([Submit (direct_call (lit "first prompt") 4000 (2 # 10)); Start 0%nat]
            ++ example_events) example_later).
  - lia.
  - repeat constructor; simpl; lia.
  - vm_compute. reflexivity.
Defined.

End DrainRuns.

(* ------------------------------------------------------------------------- *)
(** * Properties of the transcript segments *)

Module VttFacts.
Import Str StrFacts SplitterEdges CoordinatorRuns Vtt.

Lemma upd_same h r v : upd h r v r = v.
Proof. unfold upd. rewrite Nat.eqb_refl. reflexivity. Qed.

Lemma upd_other h r v x : x <> r -> upd h r v x = h x.
Proof.
  intros H. unfold upd. destruct (Nat.eqb x r) eqn:E; [|reflexivity].
  apply Nat.eqb_eq in E. contradiction.
Qed.

Lemma map_upd_notin h r v : forall l, ~ In r l -> map (upd h r v) l = map h l.
Proof.
  induction l as [|x l IH]; intros H; [reflexivity|]. simpl.
  rewrite upd_other by (intros ->; apply H; left; reflexivity).
  rewrite IH by (intros Hin; apply H; right; exact Hin). reflexivity.
Qed.

(** The loop on distinct objects computes [merge_from] on their values. *)
Lemma merge_loop_values : forall rest h merged cur h' merged' cur',
  NoDup (merged ++ cur :: rest) ->
  fold_left merge_step rest (h, merged, cur) = (h', merged', cur') ->
  map h' (merged' ++ [cur']) = map h merged ++ merge_from (h cur) (map h rest).
Proof.
  induction rest as [|seg rest IH]; intros h merged cur h' merged' cur' Hnd Hfold.
  - simpl in Hfold. injection Hfold as <- <- <-. rewrite map_app. reflexivity.
  - cbn [fold_left] in Hfold. unfold merge_step at 2 in Hfold.
    cbn [map merge_from].
    assert (Hseg : seg <> cur).
    { intros ->. apply NoDup_remove_2 in Hnd. apply Hnd.
      apply in_or_app. right. left. reflexivity. }
    pose proof (NoDup_remove_1 _ _ _ Hnd) as Hnd1.
    pose proof (NoDup_remove_2 _ _ _ Hnd) as Hcur.
    destruct (speaker_eq_dec (speaker (h seg)) (speaker (h cur))) as [E|E].
    + assert (Hnd2 : NoDup (merged ++ cur :: rest)).
      { replace (merged ++ cur :: seg :: rest) with ((merged ++ [cur]) ++ seg :: rest) in Hnd
          by (rewrite <- app_assoc; reflexivity).
        apply NoDup_remove_1 in Hnd. rewrite <- app_assoc in Hnd. exact Hnd. }
      rewrite (IH _ _ _ _ _ _ Hnd2 Hfold).
      rewrite !upd_same. cbn [start_time end_time speaker text].
      rewrite (upd_other _ _ _ seg Hseg).
      rewrite !map_upd_notin.
      * reflexivity.
      * intros H. apply Hcur. apply in_or_app. right. right. exact H.
      * intros H. apply Hcur. apply in_or_app. right. right. exact H.
      * intros H. apply Hcur. apply in_or_app. left. exact H.
      * intros H. apply Hcur. apply in_or_app. left. exact H.
    + assert (Hnd2 : NoDup ((merged ++ [cur]) ++ seg :: rest))
        by (rewrite <- app_assoc; exact Hnd).
      rewrite (IH _ _ _ _ _ _ Hnd2 Hfold).
      rewrite map_app, <- app_assoc. reflexivity.
Qed.

(** What the loop returns and what it writes: the list returned is the list
    so far, the current object and some of the remaining objects; objects
    outside it are left as they were. *)
Lemma merge_loop_frame : forall rest h merged cur h' merged' cur',
  fold_left merge_step rest (h, merged, cur) = (h', merged', cur') ->
  exists tail,
    merged' ++ [cur'] = merged ++ cur :: tail
    /\ incl tail rest
    /\ (length tail <= length rest)%nat
    /\ forall r, ~ In r (merged ++ cur :: tail) -> h' r = h r.
Proof.
  induction rest as [|seg rest IH]; intros h merged cur h' merged' cur' Hfold.
  - simpl in Hfold. injection Hfold as <- <- <-. exists []. repeat split.
    + intros x [].
    + lia.
  - cbn [fold_left] in Hfold. unfold merge_step at 2 in Hfold.
    destruct (speaker_eq_dec (speaker (h seg)) (speaker (h cur))) as [E|E].
    + destruct (IH _ _ _ _ _ _ Hfold) as [tail [Hout [Hincl [Hlen Hframe]]]].
      exists tail. split; [exact Hout|]. split; [|split].
      * intros x Hx. right. exact (Hincl x Hx).
      * simpl. lia.
      * intros r Hr. rewrite (Hframe r Hr).
        assert (Hrc : r <> cur).
        { intros ->. apply Hr. apply in_or_app. right. left. reflexivity. }
        rewrite !upd_other by exact Hrc. reflexivity.
    + destruct (IH _ _ _ _ _ _ Hfold) as [tail [Hout [Hincl [Hlen Hframe]]]].
      exists (seg :: tail). rewrite <- app_assoc in Hout, Hframe.
      split; [exact Hout|]. split; [|split].
      * intros x [<-|Hx]; [left; reflexivity|right; exact (Hincl x Hx)].
      * simpl. lia.
      * exact Hframe.
Qed.

(** With no two neighbours of one speaker the loop writes nothing and
    returns the objects it was given. *)
Lemma merge_loop_fixed : forall rest h merged cur,
  distinct_neighbours (map (fun r => speaker (h r)) (cur :: rest)) ->
  exists merged' cur',
    fold_left merge_step rest (h, merged, cur) = (h, merged', cur')
    /\ merged' ++ [cur'] = merged ++ cur :: rest.
Proof.
  induction rest as [|seg rest IH]; intros h merged cur Hd.
  - exists merged, cur. split; reflexivity.
  - cbn [fold_left]. unfold merge_step at 2.
    destruct Hd as [Hne Hd].
    destruct (speaker_eq_dec (speaker (h seg)) (speaker (h cur))) as [E|E].
    + exfalso. apply Hne. symmetry. exact E.
    + destruct (IH h (merged ++ [cur]) seg Hd) as [m' [c' [Hfold Hout]]].
      exists m', c'. split; [exact Hfold|]. rewrite Hout, <- app_assoc. reflexivity.
Qed.

Lemma merge_from_head cur l :
  exists c t, merge_from cur l = c :: t
              /\ speaker c = speaker cur /\ start_time c = start_time cur.
Proof.
  revert cur. induction l as [|s l IH]; intros cur; simpl.
  - exists cur, []. auto.
  - destruct (speaker_eq_dec (speaker s) (speaker cur)).
    + destruct (IH (mkseg (start_time cur) (end_time s) (speaker cur)
                          (text cur ++ [sp] ++ text s))) as [c [t [H [Hs Ht]]]].
      exists c, t. auto.
    + exists cur, (merge_from s l). auto.
Qed.

Lemma merge_from_distinct l : forall cur,
  distinct_neighbours (map speaker (merge_from cur l)).
Proof.
  induction l as [|s l IH]; intros cur; simpl.
  - auto.
  - destruct (speaker_eq_dec (speaker s) (speaker cur)) as [E|E].
    + apply IH.
    + destruct (merge_from_head s l) as [c [t [H [Hs _]]]].
      specialize (IH s). rewrite H in *. simpl. split; [|exact IH].
      rewrite Hs. intros Heq. apply E. symmetry. exact Heq.
Qed.

Lemma merge_from_text l : forall cur,
  join [sp] (map text (merge_from cur l)) = join [sp] (map text (cur :: l)).
Proof.
  induction l as [|s l IH]; intros cur; [reflexivity|]. cbn [merge_from].
  destruct (speaker_eq_dec (speaker s) (speaker cur)) as [E|E].
  - rewrite IH. cbn [map text].
    destruct l as [|s2 l].
    + simpl. reflexivity.
    + rewrite !join_cons by discriminate. rewrite <- !app_assoc. reflexivity.
  - destruct (merge_from_head s l) as [c [t [H _]]].
    cbn [map]. rewrite join_cons by (rewrite H; discriminate).
    rewrite IH. rewrite (join_cons [sp] (text cur)) by discriminate. reflexivity.
Qed.

Lemma merge_from_last l : forall cur d,
  end_time (last (merge_from cur l) d) = end_time (last (cur :: l) d).
Proof.
  induction l as [|s l IH]; intros cur d; [reflexivity|]. cbn [merge_from].
  destruct (speaker_eq_dec (speaker s) (speaker cur)) as [E|E].
  - rewrite IH. destruct l; reflexivity.
  - destruct (merge_from_head s l) as [c [t [H _]]].
    specialize (IH s d). rewrite H in *.
    change (last (cur :: c :: t) d) with (last (c :: t) d). rewrite IH. reflexivity.
Qed.

Lemma last_map {A B} (f : A -> B) : forall l d, last (map f l) (f d) = f (last l d).
Proof.
  induction l as [|a l IH]; intros d; [reflexivity|].
  simpl. destruct l; [reflexivity|apply IH].
Qed.

Lemma last_default {A} : forall (l : list A) d d', l <> [] -> last l d = last l d'.
Proof.
  induction l as [|a l IH]; intros d d' H; [contradiction|].
  simpl. destruct l; [reflexivity|]. apply IH. discriminate.
Qed.

(** The values of the segments returned for distinct objects. *)
Lemma merge_values h first rest :
  NoDup (first :: rest) ->
  map (fst (merge_consecutive_segments h (first :: rest)))
      (snd (merge_consecutive_segments h (first :: rest)))
  = merge_from (h first) (map h rest).
Proof.
  intros Hnd. unfold merge_consecutive_segments.
  destruct (fold_left merge_step rest (h, [], first)) as [[h' m'] c'] eqn:Hf.
  cbn [fst snd].
  exact (merge_loop_values rest h [] first h' m' c' Hnd Hf).
Qed.

Lemma merge_distinct (h : heap) (segments : list ref) :
  NoDup segments ->
  let r := merge_consecutive_segments h segments in
  distinct_neighbours (map (fun x => speaker (fst r x)) (snd r)).
Proof.
  intros Hnd r. unfold r. destruct segments as [|first rest]; [exact I|].
  rewrite <- (map_map (fst (merge_consecutive_segments h (first :: rest))) speaker).
  rewrite (merge_values h first rest Hnd). apply merge_from_distinct.
Qed.

(** X23.  In the list returned for distinct segment objects no two neighbours have
    the same speaker. *)
Theorem merge_no_equal_neighbours (h : heap) (segments : list ref) :
  NoDup segments ->
  let r := merge_consecutive_segments h segments in
  distinct_neighbours (map (fun x => speaker (fst r x)) (snd r)).
Proof. apply merge_distinct. Qed.

(** X24.  Merging distinct segment objects loses no text: the texts of the
    segments returned, joined by spaces, are the texts of the segments given,
    joined by spaces. *)
Theorem merge_keeps_text (h : heap) (segments : list ref) :
  NoDup segments ->
  let r := merge_consecutive_segments h segments in
  join [sp] (map (fun x => text (fst r x)) (snd r))
  = join [sp] (map (fun x => text (h x)) segments).
Proof.
  intros Hnd r. unfold r. destruct segments as [|first rest]; [reflexivity|].
  rewrite <- (map_map (fst (merge_consecutive_segments h (first :: rest))) text).
  rewrite (merge_values h first rest Hnd), merge_from_text.
  rewrite <- (map_map h text). reflexivity.
Qed.

(** X25.  The transcript returned for distinct segment objects spans the same
    time: it starts with the first object given, whose start time is
    unchanged, and its last segment ends when the last segment given ends. *)
Theorem merge_time_span (h : heap) (first : ref) (rest : list ref) :
  NoDup (first :: rest) ->
  let r := merge_consecutive_segments h (first :: rest) in
  hd_error (snd r) = Some first
  /\ start_time (fst r first) = start_time (h first)
  /\ end_time (fst r (last (snd r) first)) = end_time (h (last (first :: rest) first)).
Proof.
  intros Hnd r.
  pose proof (merge_values h first rest Hnd) as Hv. fold r in Hv.
  assert (Hhd : hd_error (snd r) = Some first).
  { unfold r, merge_consecutive_segments.
    destruct (fold_left merge_step rest (h, [], first)) as [[h' m'] c'] eqn:Hf.
    destruct (merge_loop_frame rest h [] first h' m' c' Hf) as [tail [Hout _]].
    cbn [snd]. rewrite Hout. reflexivity. }
  split; [exact Hhd|].
  destruct (merge_from_head (h first) (map h rest)) as [c [t [Hm [_ Hst]]]].
  destruct (snd r) as [|o out] eqn:Eo; [discriminate|].
  injection Hhd as ->. split.
  - rewrite Hm in Hv. simpl in Hv. injection Hv as Hc _. rewrite Hc. exact Hst.
  - rewrite <- (last_map (fst r)), Hv.
    rewrite (merge_from_last (map h rest) (h first) (fst r first)).
    rewrite (last_default (h first :: map h rest) (fst r first) (h first))
      by discriminate.
    change (h first :: map h rest) with (map h (first :: rest)).
    rewrite last_map. reflexivity.
Qed.

(** X26.  What the call writes.  The list returned starts with the first object
    given and holds only objects of the list given, at most as many; every
    object that is not returned (absorbed into a run, or not in the list) is
    left as it was. *)
Theorem merge_frame (h : heap) (first : ref) (rest : list ref) :
  let r := merge_consecutive_segments h (first :: rest) in
  (exists tail, snd r = first :: tail /\ incl tail rest)
  /\ (length (snd r) <= length (first :: rest))%nat
  /\ forall x, ~ In x (snd r) -> fst r x = h x.
Proof.
  intros r. unfold r, merge_consecutive_segments.
  destruct (fold_left merge_step rest (h, [], first)) as [[h' m'] c'] eqn:Hf.
  destruct (merge_loop_frame rest h [] first h' m' c' Hf)
    as [tail [Hout [Hincl [Hlen Hframe]]]].
  cbn [fst snd]. rewrite Hout. simpl app in *. split; [|split].
  - exists tail. auto.
  - simpl. lia.
  - exact Hframe.
Qed.

Lemma merge_unchanged (h : heap) (segments : list ref) :
  distinct_neighbours (map (fun x => speaker (h x)) segments) ->
  merge_consecutive_segments h segments = (h, segments).
Proof.
  intros Hd. destruct segments as [|first rest]; [reflexivity|].
  unfold merge_consecutive_segments.
  destruct (merge_loop_fixed rest h [] first Hd) as [m' [c' [Hfold Hout]]].
  destruct (fold_left merge_step rest _) as [[h1 m1] c1] eqn:Hf.
  injection Hfold as -> -> ->. rewrite Hout. reflexivity.
Qed.

(** X27.  A list in which no two neighbours have the same speaker is returned as
    it is, and nothing is written; the empty list gives the empty list. *)
Theorem merge_fixed (h : heap) (segments : list ref) :
  distinct_neighbours (map (fun x => speaker (h x)) segments) ->
  merge_consecutive_segments h segments = (h, segments).
Proof. apply merge_unchanged. Qed.

(** X28.  Merging is idempotent on distinct objects: merging what a first call
    returned, in the heap it left, changes nothing. *)
Theorem merge_idempotent (h : heap) (segments : list ref) :
  NoDup segments ->
  let r := merge_consecutive_segments h segments in
  merge_consecutive_segments (fst r) (snd r) = r.
Proof.
  intros Hnd r.
  rewrite (merge_unchanged (fst r) (snd r) (merge_distinct h segments Hnd)).
  destruct r; reflexivity.
Qed.

Lemma lstrip_head s : match lstrip s with
                      | c :: _ => is_space c = false
                      | [] => True
                      end.
Proof.
  induction s as [|c s IH]; simpl; [exact I|].
  destruct (is_space c) eqn:E; [exact IH|exact E].
Qed.

Lemma lstrip_suffix s : exists p, s = p ++ lstrip s.
Proof.
  induction s as [|c s [p IH]]; simpl.
  - exists []. reflexivity.
  - destruct (is_space c).
    + exists (c :: p). simpl. f_equal. exact IH.
    + exists []. reflexivity.
Qed.

Lemma in_lstrip c s : In c (lstrip s) -> In c s.
Proof.
  destruct (lstrip_suffix s) as [p Hp]. intros H. rewrite Hp.
  apply in_or_app. right. exact H.
Qed.

Lemma in_strip c s : In c (strip s) -> In c s.
Proof.
  unfold strip. intros H. apply in_rev in H. apply in_lstrip in H.
  apply in_rev in H. apply in_lstrip in H. exact H.
Qed.

(** [strip] leaves no white space at either end. *)
Lemma strip_trimmed s : trimmed (strip s).
Proof.
  unfold trimmed, strip. split.
  - destruct (rev (lstrip (rev (lstrip s)))) as [|c t] eqn:E; [exact I|].
    destruct (lstrip_suffix (rev (lstrip s))) as [p Hp].
    apply (f_equal (@rev ascii)) in E. rewrite rev_involutive in E. simpl in E.
    rewrite E in Hp. apply (f_equal (@rev ascii)) in Hp.
    rewrite rev_involutive, !rev_app_distr in Hp. simpl in Hp.
    rewrite rev_involutive in Hp.
    pose proof (lstrip_head s) as Hh. rewrite Hp in Hh. exact Hh.
  - rewrite rev_involutive. apply lstrip_head.
Qed.

Lemma occurs_char c : forall s, occurs [c] s = false <-> ~ In c s.
Proof.
  induction s as [|a s IH]; simpl.
  - split; [intros _ []|reflexivity].
  - rewrite andb_true_r. destruct (Ascii.eqb c a) eqn:E; simpl.
    + apply Ascii.eqb_eq in E. subst a. split; [discriminate|].
      intros H. exfalso. apply H. left. reflexivity.
    + apply Ascii.eqb_neq in E. rewrite IH. split.
      * intros H [Ha|Hs]; [congruence|contradiction].
      * intros H Hs. apply H. right. exact Hs.
Qed.

(** X29.  What [parse_vtt] reads from the text of a caption.  Without a colon
    there is no speaker and the text is kept as it is, white space included.
    With a colon, the speaker is what stands before the first colon and the
    text what stands after it, both stripped: the speaker holds no colon and
    neither has white space at its ends. *)
Theorem extract_speaker_cases (caption : str) :
  (~ In ":"%char caption -> extract_speaker caption = (None, caption))
  /\ (In ":"%char caption ->
      exists before after,
        caption = before ++ [":"%char] ++ after
        /\ ~ In ":"%char before
        /\ extract_speaker caption = (Some (strip before), strip after)
        /\ ~ In ":"%char (strip before)
        /\ trimmed (strip before) /\ trimmed (strip after)).
Proof.
  unfold extract_speaker. split; intros H.
  - apply occurs_char in H. apply split1_none in H. rewrite H. reflexivity.
  - destruct (split1 [":"%char] caption) as [[b a]|] eqn:E.
    + destruct (split1_some [":"%char] ltac:(discriminate) _ _ _ E) as [Hs Ho].
      apply occurs_char in Ho. exists b, a. split; [exact Hs|]. split; [exact Ho|].
      split; [|split; [|split; apply strip_trimmed]].
      * f_equal. unfold strip.
        assert (Hl : lstrip (lstrip a) = lstrip a).
        { pose proof (lstrip_head a) as Hh. destruct (lstrip a) as [|c t]; [reflexivity|].
          simpl. rewrite Hh. reflexivity. }
        rewrite Hl. reflexivity.
      * intros Hin. apply Ho. exact (in_strip _ _ Hin).
    + apply split1_none in E. apply occurs_char in E. contradiction.
Qed.

Lemma extract_speaker_cases_witness :
  extract_speaker (lit "no speaker here ") = (None, lit "no speaker here ")
  /\ exists before after,
       lit " Ann Lee :  hello: world " = before ++ [":"%char] ++ after
       /\ ~ In ":"%char before
       /\ extract_speaker (lit " Ann Lee :  hello: world ")
          = (Some (strip before), strip after)
       /\ ~ In ":"%char (strip before)
       /\ trimmed (strip before) /\ trimmed (strip after).
Proof.
  split.
  - apply (proj1 (extract_speaker_cases (lit "no speaker here "))).
    vm_compute. intuition discriminate.
  - apply (proj2 (extract_speaker_cases (lit " Ann Lee :  hello: world "))).
    vm_compute. intuition.
Defined.

Lemma merge_no_equal_neighbours_witness :
  let h : heap := fun x =>
    nth x [mkseg (lit "0") (lit "1") (Some (lit "Ann")) (lit "hello");
           mkseg (lit "1") (lit "2") (Some (lit "Ann")) (lit "there");
           mkseg (lit "2") (lit "3") None (lit "noise")]
          (mkseg [] [] None []) in
  let r := merge_consecutive_segments h [0; 1; 2]%nat in
  distinct_neighbours (map (fun x => speaker (fst r x)) (snd r)).
Proof.
  intros h. apply (merge_no_equal_neighbours h [0; 1; 2]%nat).
  repeat constructor; simpl; intuition discriminate.
Defined.

Lemma merge_keeps_text_witness :
  let h : heap := fun x =>
    nth x [mkseg (lit "0") (lit "1") (Some (lit "Ann")) (lit "hello");
           mkseg (lit "1") (lit "2") (Some (lit "Ann")) (lit "there");
           mkseg (lit "2") (lit "3") None (lit "noise")]
          (mkseg [] [] None []) in
  let r := merge_consecutive_segments h [0; 1; 2]%nat in
  join [sp] (map (fun x => text (fst r x)) (snd r))
  = join [sp] (map (fun x => text (h x)) [0; 1; 2]%nat).
Proof.
  intros h. apply (merge_keeps_text h [0; 1; 2]%nat).
  repeat constructor; simpl; intuition discriminate.
Defined.

Lemma merge_time_span_witness :
  let h : heap := fun x =>
    nth x [mkseg (lit "0") (lit "1") (Some (lit "Ann")) (lit "hello");
           mkseg (lit "1") (lit "2") (Some (lit "Ann")) (lit "there");
           mkseg (lit "2") (lit "3") None (lit "noise")]
          (mkseg [] [] None []) in
  let r := merge_consecutive_segments h [0; 1; 2]%nat in
  hd_error (snd r) = Some 0%nat
  /\ start_time (fst r 0%nat) = start_time (h 0%nat)
  /\ end_time (fst r (last (snd r) 0%nat)) = end_time (h (last [0; 1; 2]%nat 0%nat)).
Proof.
  intros h. apply (merge_time_span h 0%nat [1; 2]%nat).
  repeat constructor; simpl; intuition discriminate.
Defined.

Lemma merge_fixed_witness :
  let h : heap := fun x =>
    nth x [mkseg (lit "0") (lit "1") (Some (lit "Ann")) (lit "hello");
           mkseg (lit "1") (lit "2") (Some (lit "Bob")) (lit "there");
           mkseg (lit "2") (lit "3") (Some (lit "Ann")) (lit "again")]
          (mkseg [] [] None []) in
  merge_consecutive_segments h [0; 1; 2]%nat = (h, [0; 1; 2]%nat).
Proof.
  intros h. apply (merge_fixed h [0; 1; 2]%nat).
  simpl. repeat split; discriminate.
Defined.

Lemma merge_idempotent_witness :
  let h : heap := fun x =>
    nth x [mkseg (lit "0") (lit "1") (Some (lit "Ann")) (lit "hello");
           mkseg (lit "1") (lit "2") (Some (lit "Ann")) (lit "there");
           mkseg (lit "2") (lit "3") None (lit "noise")]
          (mkseg [] [] None []) in
  let r := merge_consecutive_segments h [0; 1; 2]%nat in
  merge_consecutive_segments (fst r) (snd r) = r.
Proof.
  intros h. apply (merge_idempotent h [0; 1; 2]%nat).
  repeat constructor; simpl; intuition discriminate.
Defined.

End VttFacts.

(* ------------------------------------------------------------------------- *)
(** * A single drain loop serves the whole queue *)

Module DrainLiveness.
Import Str Splitter Coordinator Drain TokenBucketFacts DrainFacts DrainRuns.
Open Scope Q_scope.

Lemma rate_process s i r :
  TokenBucket.refill_rate (token_bucket (process s i r))
  = TokenBucket.refill_rate (token_bucket s).
Proof.
  unfold process. destruct (queue s).
  - destruct (is_done (trace s) (future r)); reflexivity.
  - pose proof (apply_constants (world_of s)
                  (TokenBucket.Consume (inject_Z (estimated_tokens r)))) as [_ Er].
    simpl in Er.
    destruct (TokenBucket.consume (token_bucket s) (clock s)
                (inject_Z (estimated_tokens r))) as [ok b].
    exact Er.
Qed.

Lemma rate_loop_head s i :
  TokenBucket.refill_rate (token_bucket (loop_head s i))
  = TokenBucket.refill_rate (token_bucket s).
Proof.
  unfold loop_head. destruct (queue s) as [|r rest]; [reflexivity|].
  pose proof (get_wait_time_bucket (token_bucket s) (clock s)
                (inject_Z (estimated_tokens r))) as Hb.
  destruct (TokenBucket.get_wait_time _ _ _) as [w b]. simpl in Hb. subst b.
  destruct w as [wt|]; [|reflexivity].
  destruct (Qle_bool wt 0); [|reflexivity].
  rewrite rate_process. reflexivity.
Qed.

(** What the loop does at its head when a request waits and the rate is not
    zero: it sleeps for the head of the queue, or pops it and calls. *)
Lemma loop_head_cases s i r rest :
  (i < length (tasks s))%nat ->
  queue s = r :: rest ->
  Qeq_bool (TokenBucket.refill_rate (token_bucket s)) 0 = false ->
  resolution_order (trace (loop_head s i)) = resolution_order (trace s)
  /\ ((exists wake, nth_error (tasks (loop_head s i)) i = Some (Sleeping r wake)
                    /\ queue (loop_head s i) = r :: rest)
      \/ (nth_error (tasks (loop_head s i)) i = Some (Calling r)
          /\ queue (loop_head s i) = rest)).
Proof.
  intros Hlen Hq Hrate. unfold loop_head. rewrite Hq.
  unfold TokenBucket.get_wait_time.
  change (TokenBucket.refill_rate (TokenBucket.refill (token_bucket s) (clock s)))
    with (TokenBucket.refill_rate (token_bucket s)).
  rewrite Hrate.
  set (b1 := TokenBucket.refill (token_bucket s) (clock s)).
  assert (Hpop : forall ok b',
    process (set_bucket s b1) i r
    = set_task (log (set_bucket (set_queue (set_bucket s b1) rest) b')
                    [Consumed (future r) (estimated_tokens r) ok; ApiCall (future r)])
               i (Calling r) ->
    resolution_order (trace (process (set_bucket s b1) i r)) = resolution_order (trace s)
    /\ ((exists wake, nth_error (tasks (process (set_bucket s b1) i r)) i
                      = Some (Sleeping r wake)
                      /\ queue (process (set_bucket s b1) i r) = r :: rest)
        \/ (nth_error (tasks (process (set_bucket s b1) i r)) i = Some (Calling r)
            /\ queue (process (set_bucket s b1) i r) = rest))).
  { intros ok b' ->. split.
    - simpl. rewrite resolution_order_app. simpl. rewrite app_nil_r. reflexivity.
    - right. split; [|reflexivity]. simpl. apply nth_error_update_eq. exact Hlen. }
  destruct (process_pop (set_bucket s b1) i r rest Hlen Hq) as [ok [b' Hp]].
  destruct (Qle_bool (inject_Z (estimated_tokens r)) (TokenBucket.tokens b1)).
  - change (Qle_bool 0 0) with true. cbv iota. exact (Hpop ok b' Hp).
  - match goal with
    | |- context [Qle_bool ?w 0] => destruct (Qle_bool w 0)
    end.
    + exact (Hpop ok b' Hp).
    + split; [reflexivity|]. left. eexists. split; [|exact Hq].
      simpl. apply nth_error_update_eq. exact Hlen.
Qed.

Lemma complete_step s i r o :
  one_loop s i -> nth_error (tasks s) i = Some (Calling r) ->
  step s (Complete i o) = Some (loop_head (log s [Resolved (future r) o]) i).
Proof.
  intros Hone Ei.
  assert (Hfresh : is_done (trace s) (future r) = false).
  { destruct (is_done (trace s) (future r)) eqn:E; [|reflexivity].
    apply is_done_spec in E. pose proof (ol_nodup s i Hone) as Hnd.
    unfold fifo_order, held in Hnd. rewrite Ei in Hnd.
    apply NoDup_remove_2 in Hnd. exfalso. apply Hnd. apply in_or_app. left. exact E. }
  simpl. rewrite Ei. unfold resolve. rewrite Hfresh. reflexivity.
Qed.

Lemma drains_by_work (answer : nat -> outcome) : forall n s i,
  one_loop s i ->
  Qeq_bool (TokenBucket.refill_rate (token_bucket s)) 0 = false ->
  (work_left s i <= n)%nat ->
  exists es s',
    steps s es = Some s' /\ Forall no_submit es
    /\ nth_error (tasks s') i = Some Finished
    /\ processing s' = false /\ queue s' = []
    /\ resolution_order (trace s') = fifo_order s i.
Proof.
  induction n as [|n IH]; intros s i Hone Hrate Hwork.
  - exfalso. destruct (ol_task s i Hone) as [d [Hd Hact]].
    unfold work_left in Hwork. rewrite Hd in Hwork.
    destruct d as [|r w|r| |]; try discriminate.
    + destruct (ol_sleep s i Hone r w Hd) as [rest Hq]. rewrite Hq in Hwork.
      simpl in Hwork. lia.
    + lia.
  - destruct (ol_task s i Hone) as [d [Hd Hact]].
    pose proof (nth_error_lt _ _ _ Hd) as Hlen.
    destruct d as [|r w|r| |]; try discriminate.
    + (* the loop sleeps: let the time pass, then wake it *)
      destruct (ol_sleep s i Hone r w Hd) as [rest Hq].
      set (dt := if Qle_bool w (clock s) then 0 else w - clock s).
      assert (Hdt : Qle_bool 0 dt = true).
      { unfold dt. destruct (Qle_bool w (clock s)) eqn:E; [reflexivity|].
        apply Qle_bool_iff.
        assert (~ w <= clock s) by (intros H; apply Qle_bool_iff in H; congruence).
        lra. }
      assert (Hwake : Qle_bool w (clock s + dt) = true).
      { unfold dt. destruct (Qle_bool w (clock s)) eqn:E.
        - apply Qle_bool_iff in E. apply Qle_bool_iff. lra.
        - apply Qle_bool_iff. lra. }
      set (s1 := set_clock s (clock s + dt)).
      assert (Hstep1 : step s (Tick dt) = Some s1) by (simpl; rewrite Hdt; reflexivity).
      destruct (single_loop_fifo s i _ _ Hone Hstep1) as [Hf1 Hc1].
      assert (Hone1 : one_loop s1 i).
      { destruct Hc1 as [H|[[H _]|H]]; [exact H| |];
          change (tasks s1) with (tasks s) in H; congruence. }
      destruct (process_pop s1 i r rest Hlen Hq) as [ok [b Hp]].
      assert (Hstep2 : step s1 (Wake i) = Some (process s1 i r)).
      { simpl. change (tasks s1) with (tasks s). rewrite Hd.
        change (clock s1) with (clock s + dt). rewrite Hwake. reflexivity. }
      destruct (single_loop_fifo s1 i _ _ Hone1 Hstep2) as [Hf2 Hc2].
      assert (Htask2 : nth_error (tasks (process s1 i r)) i = Some (Calling r)).
      { rewrite Hp. simpl. apply nth_error_update_eq. exact Hlen. }
      assert (Hone2 : one_loop (process s1 i r) i).
      { destruct Hc2 as [H|[[H _]|H]]; [exact H| |]; congruence. }
      assert (Hq2 : queue (process s1 i r) = rest) by (rewrite Hp; reflexivity).
      assert (Hw2 : (work_left (process s1 i r) i <= n)%nat).
      { unfold work_left in *. rewrite Htask2, Hq2. rewrite Hd, Hq in Hwork.
        simpl in Hwork. lia. }
      assert (Hr2 : Qeq_bool (TokenBucket.refill_rate (token_bucket (process s1 i r))) 0
                    = false).
      { rewrite rate_process. exact Hrate. }
      destruct (IH _ i Hone2 Hr2 Hw2) as [es [s' [Hs [Hns [Hfin [Hfl [Hqe Hres]]]]]]].
      exists (Tick dt :: Wake i :: es), s'. split.
      * cbn [steps]. rewrite Hstep1. cbn [steps]. rewrite Hstep2. exact Hs.
      * split; [repeat constructor; assumption|].
        split; [exact Hfin|]. split; [exact Hfl|]. split; [exact Hqe|].
        rewrite Hres, Hf2, Hf1. simpl. rewrite !app_nil_r. reflexivity.
    + (* a call is in flight: it returns *)
      pose proof (complete_step s i r (answer (future r)) Hone Hd) as Hstep.
      set (s0 := log s [Resolved (future r) (answer (future r))]) in *.
      destruct (single_loop_fifo s i _ _ Hone Hstep) as [Hf Hc].
      simpl submitted in Hf. rewrite app_nil_r in Hf.
      destruct (queue s) as [|r' rest] eqn:Hq.
      * (* nothing waits: the loop ends *)
        assert (Hfin : loop_head s0 i = finish s0 i).
        { unfold loop_head. change (queue s0) with (queue s). rewrite Hq. reflexivity. }
        exists [Complete i (answer (future r))], (loop_head s0 i). split.
        -- cbn [steps]. rewrite Hstep. reflexivity.
        -- split; [repeat constructor|].
           assert (Ht : nth_error (tasks (loop_head s0 i)) i = Some Finished).
           { rewrite Hfin. simpl. apply nth_error_update_eq. exact Hlen. }
           split; [exact Ht|]. split; [rewrite Hfin; reflexivity|].
           split; [rewrite Hfin; simpl; exact Hq|].
           rewrite <- Hf. unfold fifo_order, held. rewrite Ht, Hfin. simpl.
           change (queue s0) with (queue s). rewrite Hq. simpl.
           rewrite app_nil_r. reflexivity.
      * (* the loop goes on with the head of the queue *)
        destruct (loop_head_cases s0 i r' rest Hlen Hq Hrate) as [_ Hnext].
        assert (Hone1 : one_loop (loop_head s0 i) i).
        { destruct Hc as [H|[[H _]|H]]; [exact H| |];
            destruct Hnext as [[wk [Hn _]]|[Hn _]]; congruence. }
        assert (Hw1 : (work_left (loop_head s0 i) i <= n)%nat).
        { unfold work_left in *. rewrite Hd, Hq in Hwork. cbn [length] in Hwork.
          destruct Hnext as [[wk [Hn Hqn]]|[Hn Hqn]]; rewrite Hn, Hqn;
            cbn [length]; lia. }
        assert (Hr1 : Qeq_bool (TokenBucket.refill_rate
                                  (token_bucket (loop_head s0 i))) 0 = false).
        { rewrite rate_loop_head. exact Hrate. }
        destruct (IH _ i Hone1 Hr1 Hw1) as [es [s' [Hs [Hns [Hfin [Hfl [Hqe Hres]]]]]]].
        exists (Complete i (answer (future r)) :: es), s'. split.
        -- cbn [steps]. rewrite Hstep. exact Hs.
        -- split; [constructor; [exact I|exact Hns]|].
           split; [exact Hfin|]. split; [exact Hfl|]. split; [exact Hqe|].
           rewrite Hres, Hf. reflexivity.
Qed.

(** X21.  A single drain loop, left to itself, serves the whole queue.  From any
    state in which task [i] is the only drain loop and the refill rate is
    not zero there is a run without further submissions (the clock advances,
    the loop wakes up, the calls return what [answer] says) after which the
    queue is empty, the loop has returned, the flag is clear, and every
    future has been resolved, in the order of the queue. *)
Theorem single_loop_drains (answer : nat -> outcome) s i :
  one_loop s i ->
  Qeq_bool (TokenBucket.refill_rate (token_bucket s)) 0 = false ->
  exists es s',
    steps s es = Some s' /\ Forall no_submit es
    /\ nth_error (tasks s') i = Some Finished
    /\ processing s' = false /\ queue s' = []
    /\ resolution_order (trace s') = fifo_order s i.
Proof.
  intros Hone Hrate.
  exact (drains_by_work answer (work_left s i) s i Hone Hrate (Nat.le_refl _)).
Qed.

Lemma single_loop_drains_witness :
  exists es s',
    steps example_queued es = Some s' /\ Forall no_submit es
    /\ nth_error (tasks s') 0 = Some Finished
    /\ processing s' = false /\ queue s' = []
    /\ resolution_order (trace s') = fifo_order example_queued 0.
Proof.
  apply (single_loop_drains (fun _ => Ok (lit "done")) example_queued 0).
  - split.
    + reflexivity.
    + eexists. split; reflexivity.
    + intros [|[|j]] d Hj Hd; try discriminate. contradiction.
    + intros r w H. discriminate.
    + repeat constructor; simpl; intuition discriminate.
    + repeat constructor.
  - reflexivity.
Defined.

Lemma flag_process s i r r0 rest :
  queue s = r0 :: rest -> processing (process s i r) = processing s
                          /\ next_future (process s i r) = next_future s.
Proof.
  intros Hq. unfold process. rewrite Hq.
  destruct (TokenBucket.consume _ _ _). split; reflexivity.
Qed.

Lemma flag_loop_head s i r rest :
  queue s = r :: rest -> processing (loop_head s i) = processing s
                         /\ next_future (loop_head s i) = next_future s.
Proof.
  intros Hq. unfold loop_head. rewrite Hq.
  destruct (TokenBucket.get_wait_time _ _ _) as [[wt|] b]; [|split; reflexivity].
  destruct (Qle_bool wt 0); [|split; reflexivity].
  apply (flag_process (set_bucket s b) i r r rest). exact Hq.
Qed.

(** X22.  A request submitted to an idle queue whose drain task starts before
    anyone else submits is served by a single drain loop: after the two
    events the new task is the only loop, and the new future comes after
    those already resolved. *)
Theorem idle_start_one_loop s c :
  idle s ->
  Qeq_bool (TokenBucket.refill_rate (token_bucket s)) 0 = false ->
  exists s',
    steps s [Submit c; Start (length (tasks s))] = Some s'
    /\ one_loop s' (length (tasks s))
    /\ fifo_order s' (length (tasks s))
       = resolution_order (trace s) ++ [next_future s].
Proof.
  intros [Hflag Hq Htasks Hnd Hal] Hrate.
  set (k := length (tasks s)).
  set (r := mkreq (call_prompt c) (call_max_tokens c) (call_temperature c)
                  (call_estimated_tokens c) (next_future s) (clock s)).
  set (s2 := set_processing (enqueue s c) true).
  assert (Ht2 : tasks s2 = tasks s ++ [Created]).
  { unfold s2. simpl. rewrite Hflag. reflexivity. }
  assert (Hq2 : queue s2 = [r]).
  { unfold s2. simpl. rewrite Hq. reflexivity. }
  assert (Hlen2 : (k < length (tasks s2))%nat).
  { rewrite Ht2, length_app. simpl. unfold k. lia. }
  assert (Hstep : steps s [Submit c; Start k] = Some (loop_head s2 k)).
  { cbn [steps step].
    assert (Hc : nth_error (tasks (enqueue s c)) k = Some Created).
    { rewrite (enqueue_spawn s c Hflag). unfold k.
      rewrite nth_error_app2 by lia. rewrite Nat.sub_diag. reflexivity. }
    rewrite Hc. reflexivity. }
  exists (loop_head s2 k). split; [exact Hstep|].
  destruct (loop_head_cases s2 k r [] Hlen2 Hq2 Hrate) as [Hres Hnext].
  destruct (flag_loop_head s2 k r [] Hq2) as [Hfl Hnf].
  destruct (tasks_loop_head s2 k) as [d Htd].
  assert (Hfifo : fifo_order (loop_head s2 k) k
                  = resolution_order (trace s) ++ [next_future s]).
  { unfold fifo_order, held. rewrite Hres.
    destruct Hnext as [[wk [Hn Hqn]]|[Hn Hqn]]; rewrite Hn, Hqn; reflexivity. }
  split; [|exact Hfifo]. split.
  - rewrite Hfl. reflexivity.
  - destruct Hnext as [[wk [Hn _]]|[Hn _]]; eexists; (split; [exact Hn|reflexivity]).
  - intros j dj Hj Hdj. rewrite Htd, nth_error_update_neq in Hdj by congruence.
    rewrite Ht2 in Hdj.
    destruct (Nat.lt_ge_cases j k) as [Hlt|Hge].
    + rewrite nth_error_app1 in Hdj by exact Hlt. exact (Htasks j dj Hdj).
    + assert (Hnone : nth_error (tasks s ++ [Created]) j = None).
      { apply nth_error_None. rewrite length_app. simpl. fold k. lia. }
      congruence.
  - intros r0 w0 Hs. destruct Hnext as [[wk [Hn Hqn]]|[Hn _]]; [|congruence].
    rewrite Hn in Hs. injection Hs as <- _. exists []. exact Hqn.
  - rewrite Hfifo. apply NoDup_app; [exact Hnd|repeat constructor; intros []|].
    intros a Ha [<-|[]]. rewrite Forall_forall in Hal. specialize (Hal _ Ha). lia.
  - rewrite Hfifo, Hnf. apply Forall_app. split.
    + eapply Forall_impl; [|exact Hal]. simpl. intros a Ha. unfold s2. simpl. lia.
    + constructor; [unfold s2; simpl; lia|constructor].
Qed.

Lemma idle_start_one_loop_witness :
  exists s',
    steps (init 30000 0)
          [Submit (direct_call (lit "first prompt") 4000 (2 # 10));
           Start (length (tasks (init 30000 0)))] = Some s'
    /\ one_loop s' (length (tasks (init 30000 0)))
    /\ fifo_order s' (length (tasks (init 30000 0)))
       = resolution_order (trace (init 30000 0)) ++ [next_future (init 30000 0)].
Proof.
  apply (idle_start_one_loop (init 30000 0)
           (direct_call (lit "first prompt") 4000 (2 # 10))).
  - split.
    + reflexivity.
    + reflexivity.
    + intros [|j] d H; discriminate.
    + constructor.
    + constructor.
  - reflexivity.
Defined.

End DrainLiveness.
